(** * Supervised HMM estimation and Viterbi decoding

    A shallow embedding of [src/hmm/predictions.py] ([load_hmm], [viterbi]
    and the test loop of the script) and of the script body of
    [src/hmm/construct.py], followed by the properties of the specification
    that are settled against it.

    Conventions of the embedding.

    - A label is a Python [int]: [Z].
    - A Python [float] holding a probability is modelled by the rational it
      denotes ([Qc], rationals in lowest terms, so that [=] is the equality
      of values).  Every floating point operation of the source ([*] on
      floats, [/] on two ints) is the exact operation followed by a rounding
      operator [rnd : Qc -> Qc], which is a parameter.  [rnd := id] is exact
      arithmetic; round-to-nearest of binary64 on the range of probabilities
      is monotone, fixes [0] and has relative error at most [2^-53] on
      quotients of counts, and it may round a small product down to [0]
      (underflow).  Infinities and NaN are not modelled: products and
      quotients of probabilities do not produce them.  Each theorem lists
      the facts about [rnd] it needs, and most need none.
    - A Python exception is a value of [exn]; a computation that may raise
      is a value of [result].
    - A text line is the list of its whitespace separated tokens, and a
      token is [Some z] when [int(token)] is [z] and [None] when [int]
      rejects it.
    - [defaultdict(int)] tables are [gmap]s read with default [0]; [set]s are
      [gset]s; a [dict] whose iteration order matters (the rows of the
      Viterbi table) is an association list in insertion order. *)

From stdpp Require Import gmap list sorting numbers fin_maps.
From Stdlib Require Import QArith Qcanon.

Local Open Scope Qc_scope.

(** ** Exceptions and the result monad *)

Inductive exn : Type :=
  | KeyError (k : option Z)
  | IndexError
  | ValueError
  | ZeroDivisionError.

Inductive result (X : Type) : Type :=
  | Ok (x : X)
  | Raise (e : exn).
Arguments Ok {X} x.
Arguments Raise {X} e.

#[global] Instance result_ret : MRet result := λ X x, Ok x.
#[global] Instance result_bind : MBind result := λ X Y f r,
  match r with Ok x => f x | Raise e => Raise e end.

(** [for x in l: acc = body(acc, x)], where the body may raise. *)
Fixpoint foldM {X S : Type} (body : S → X → result S) (acc : S) (l : list X)
  : result S :=
  match l with
  | [] => Ok acc
  | x :: l' => acc' ← body acc x; foldM body acc' l'
  end.

(** [[f(x) for x in l]], where [f] may raise. *)
Fixpoint mapR {X Y : Type} (f : X → result Y) (l : list X) : result (list Y) :=
  match l with
  | [] => Ok []
  | x :: l' => y ← f x; ys ← mapR f l'; Ok (y :: ys)
  end.

(** ** Python primitives *)

Abbreviation token := (option Z).
Abbreviation line := (list (option Z)).

(** [l[i]] for a non-negative index. *)
Definition py_index {X : Type} (l : list X) (i : nat) : result X :=
  match l !! i with Some x => Ok x | None => Raise IndexError end.

(** [l[-1]] *)
Definition py_last {X : Type} (l : list X) : result X :=
  match last l with Some x => Ok x | None => Raise IndexError end.

(** [int(token)] *)
Definition py_int_token (tk : token) : result Z :=
  match tk with Some z => Ok z | None => Raise ValueError end.

(** [int(line.strip())]: the line must be exactly one integer token. *)
Definition py_int (l : line) : result Z :=
  match l with
  | [tk] => py_int_token tk
  | _ => Raise ValueError
  end.

(** [list(map(int, line.strip().split()))] *)
Definition py_ints (l : line) : result (list Z) := mapR py_int_token l.

(** [d[k]] on a [dict] with integer keys. *)
Definition py_getitem {V : Type} (d : gmap Z V) (k : Z) : result V :=
  match d !! k with Some v => Ok v | None => Raise (KeyError (Some k)) end.

(** [defaultdict(int)] and [defaultdict(lambda: defaultdict(int))]: reading a
    missing key yields [0] (the entry that the read creates holds [0] and
    does not change any later read). *)
Definition dd_get (d : gmap Z nat) (k : Z) : nat := default 0%nat (d !! k).
Definition dd_incr (d : gmap Z nat) (k : Z) : gmap Z nat :=
  <[k := S (dd_get d k)]> d.
Definition dd2_row (d : gmap Z (gmap Z nat)) (a : Z) : gmap Z nat :=
  default ∅ (d !! a).
Definition dd2_get (d : gmap Z (gmap Z nat)) (a b : Z) : nat :=
  dd_get (dd2_row d a) b.
Definition dd2_incr (d : gmap Z (gmap Z nat)) (a b : Z) : gmap Z (gmap Z nat) :=
  <[a := dd_incr (dd2_row d a) b]> d.

(** [sorted(s)] for a set of integers. *)
Definition py_sorted (s : gset Z) : list Z := merge_sort Z.le (elements s).

(** [{x: i for i, x in enumerate(l)}]: a later duplicate overwrites. *)
Definition index_map (l : list Z) : gmap Z nat :=
  foldl (λ d p, <[p.2 := p.1]> d) ∅ (zip (seq 0 (length l)) l).

(** ** Matrices *)

Abbreviation matrix := (list (list Qc)).

(** [[[0.0]*m for _ in range(n)]] *)
Definition zeros (n m : nat) : matrix := replicate n (replicate m 0).

(** [M[i][j]] *)
Definition mat_get (M : matrix) (i j : nat) : result Qc :=
  row ← py_index M i; py_index row j.

(** [M[i][j] = v] *)
Definition mat_set (M : matrix) (i j : nat) (v : Qc) : result matrix :=
  row ← py_index M i;
  if decide (j < length row)%nat then Ok (<[i := <[j := v]> row]> M)
  else Raise IndexError.

(** ** The counting pass ([load_hmm] lines 12-34, [construct.py] lines 19-47) *)

Record counts : Type := Counts {
  trans_counts : gmap Z (gmap Z nat);
  emiss_counts : gmap Z (gmap Z nat);
  state_counts : gmap Z nat;
  states_set : gset Z;
  obs_set : gset Z }.

Definition counts_init : counts := Counts ∅ ∅ ∅ ∅ ∅.

(** [for i in range(len(states_seq)-1):
       trans_counts[states_seq[i]][states_seq[i+1]] += 1] *)
Fixpoint count_transitions (states_seq : list Z) (tc : gmap Z (gmap Z nat))
  : gmap Z (gmap Z nat) :=
  match states_seq with
  | a :: rest =>
      match rest with
      | b :: _ => count_transitions rest (dd2_incr tc a b)
      | [] => tc
      end
  | [] => tc
  end.

(** [for s, o in zip(states_seq, obs_seq):
       emiss_counts[s][o] += 1; state_counts[s] += 1].
    [zip] stops at the end of the shorter list. *)
Definition count_emissions (states_seq obs_seq : list Z)
    (ec : gmap Z (gmap Z nat)) (sc : gmap Z nat)
  : gmap Z (gmap Z nat) * gmap Z nat :=
  foldl (λ acc so, (dd2_incr acc.1 so.1 so.2, dd_incr acc.2 so.1))
        (ec, sc) (zip states_seq obs_seq).

(** The body of the loop over runs, once both lines are parsed. *)
Definition scan_run (states_seq obs_seq : list Z) (c : counts) : counts :=
  let tc := count_transitions states_seq (trans_counts c) in
  let es := count_emissions states_seq obs_seq (emiss_counts c) (state_counts c) in
  Counts tc es.1 es.2
         (states_set c ∪ list_to_set states_seq)
         (obs_set c ∪ list_to_set obs_seq).

(** [for _ in range(n_runs)]: two lines are read per run, starting at [idx]. *)
Fixpoint scan_runs (n_runs : nat) (lines : list line) (idx : nat) (c : counts)
  : result counts :=
  match n_runs with
  | O => Ok c
  | S n =>
      l1 ← py_index lines idx;
      states_seq ← py_ints l1;
      l2 ← py_index lines (idx + 1);
      obs_seq ← py_ints l2;
      scan_runs n lines (idx + 2) (scan_run states_seq obs_seq c)
  end.

(** The whole counting pass on the lines of the dataset file. *)
Definition count_pass (lines : list line) : result counts :=
  l0 ← py_index lines 0;
  n_runs ← py_int l0;
  scan_runs (Z.to_nat n_runs) lines 1 counts_init.

(** ** The model returned by [load_hmm]

    The tuple [(states, obs, A, B, st_idx, ob_idx)]. *)

Record hmm : Type := Hmm {
  hmm_states : list Z;
  hmm_obs : list Z;
  hmm_A : matrix;
  hmm_B : matrix;
  hmm_st_idx : gmap Z nat;
  hmm_ob_idx : gmap Z nat }.

(** ** The rows of the Viterbi table

    [dp[t]] is a [dict] from a state label to the pair
    [(probability, previous state)]; the previous state is [None] when the
    inner loop never replaced its initial value.  Keys are kept in
    insertion order, which is the order [max] iterates in. *)

Abbreviation cell := (Qc * option Z)%type.
Abbreviation dict := (list (Z * (Qc * option Z))).

(** [d[k] = v]: an existing key keeps its position. *)
Fixpoint dict_set (k : Z) (v : cell) (d : dict) : dict :=
  match d with
  | [] => [(k, v)]
  | kv :: d' => if decide (k = kv.1) then (k, v) :: d' else kv :: dict_set k v d'
  end.

(** [d[k]] *)
Fixpoint dict_get (k : Z) (d : dict) : result cell :=
  match d with
  | [] => Raise (KeyError (Some k))
  | kv :: d' => if decide (k = kv.1) then Ok kv.2 else dict_get k d'
  end.

(** [d[k]] where [k] is an element of the path, possibly [None]. *)
Definition dict_get_opt (k : option Z) (d : dict) : result cell :=
  match k with
  | Some s => dict_get s d
  | None => Raise (KeyError None)
  end.

(** [max(d, key=lambda s: d[s][0])]: the keys are visited in insertion
    order and a key replaces the current best only when its value is
    strictly greater.  Keys of a [dict] are distinct, so [d[s]] is the cell
    stored with [s]. *)
Definition py_max_key (d : dict) : result Z :=
  match d with
  | [] => Raise ValueError
  | kv :: d' =>
      Ok (foldl (λ best kv', if decide (best.2 < kv'.2.1) then (kv'.1, kv'.2.1)
                             else best)
                (kv.1, kv.2.1) d').1
  end.

(** [dp[t][s] = v] *)
Definition dp_set (dp : list dict) (t : nat) (s : Z) (v : cell)
  : result (list dict) :=
  d ← py_index dp t; Ok (<[t := dict_set s v d]> dp).

Definition start_state : Z := 0.

Section Code.

Context (rnd : Qc → Qc).

(** [x * y] on floats. *)
Definition fmul (x y : Qc) : Qc := rnd (x * y).

(** [c / t] on two ints. *)
Definition py_truediv (c t : nat) : result Qc :=
  match t with
  | O => Raise ZeroDivisionError
  | S _ => Ok (rnd (Qc_of_Z (Z.of_nat c) / Qc_of_Z (Z.of_nat t)))
  end.

(** *** Normalisation ([load_hmm] lines 47-61, [construct.py] lines 64-84)

    Both matrices are filled by the same pair of nested loops: for every row
    label [r] (with its total) and every column label [col],
    [M[r_idx[r]][c_idx[col]] = cnt[r][col]/total if total > 0 else 0.0]. *)

Definition fill_row (cols : list Z) (c_idx : gmap Z nat) (cnt : Z → nat)
    (total : nat) (i : nat) (M : matrix) : result matrix :=
  foldM (λ M col,
           j ← py_getitem c_idx col;
           v ← (if decide (0 < total)%nat then py_truediv (cnt col) total
                else Ok 0);
           mat_set M i j v)
        M cols.

Definition fill_matrix (rows cols : list Z) (r_idx c_idx : gmap Z nat)
    (cnt : Z → Z → nat) (total : Z → nat) (M : matrix) : result matrix :=
  foldM (λ M r,
           let tot := total r in
           i ← py_getitem r_idx r;
           fill_row cols c_idx (cnt r) tot i M)
        M rows.

(** [sum(trans_counts[from_st][to_st] for to_st in states)] *)
Definition total_transitions (tc : gmap Z (gmap Z nat)) (states : list Z)
    (from_st : Z) : nat :=
  sum_list (map (dd2_get tc from_st) states).

(** [load_hmm], lines 36-63. *)
Definition normalise (c : counts) : result hmm :=
  let states := py_sorted (states_set c) in
  let obs := py_sorted (obs_set c) in
  let N := length states in
  let M := length obs in
  let st_idx := index_map states in
  let ob_idx := index_map obs in
  A ← fill_matrix states states st_idx st_idx
        (dd2_get (trans_counts c))
        (total_transitions (trans_counts c) states) (zeros N N);
  B ← fill_matrix states obs st_idx ob_idx
        (dd2_get (emiss_counts c))
        (dd_get (state_counts c)) (zeros N M);
  Ok (Hmm states obs A B st_idx ob_idx).

(** [load_hmm(dataset_path)], applied to the lines of the file. *)
Definition load_hmm (lines : list line) : result hmm :=
  c ← count_pass lines; normalise c.

(** The script body of [construct.py] up to the two matrices it renders:
    [(trans_matrix, emiss_matrix)]. *)
Definition construct (lines : list line) : result (matrix * matrix) :=
  c ← count_pass lines;
  let sorted_states := py_sorted (states_set c) in
  let sorted_observables := py_sorted (obs_set c) in
  let num_states := length sorted_states in
  let num_obs := length sorted_observables in
  let state_to_idx := index_map sorted_states in
  let obs_to_idx := index_map sorted_observables in
  trans_matrix ← fill_matrix sorted_states sorted_states
        state_to_idx state_to_idx
        (dd2_get (trans_counts c))
        (total_transitions (trans_counts c) sorted_states)
        (zeros num_states num_states);
  emiss_matrix ← fill_matrix sorted_states sorted_observables
        state_to_idx obs_to_idx
        (dd2_get (emiss_counts c))
        (dd_get (state_counts c)) (zeros num_states num_obs);
  Ok (trans_matrix, emiss_matrix).

(** *** [viterbi] *)

Section Viterbi.

Context (states : list Z) (A B : matrix) (st_idx : gmap Z nat)
        (obs_ids : list nat).

(** Lines 76-80. *)
Definition init_loop (dp : list dict) : result (list dict) :=
  foldM (λ dp s,
           if decide (s ≠ start_state) then
             prev_i ← py_getitem st_idx start_state;
             curr_i ← py_getitem st_idx s;
             a ← mat_get A prev_i curr_i;
             o ← py_index obs_ids 0;
             b ← mat_get B curr_i o;
             dp_set dp 0 s (fmul a b, Some start_state)
           else Ok dp)
        dp states.

(** Line 94:
    [dp[t-1][prev_s][0] * A[prev_i][curr_i] * B[curr_i][obs_ids[t]]]. *)
Definition step_prob (dp : list dict) (t : nat) (curr_i : nat) (prev_s : Z)
  : result Qc :=
  prev_i ← py_getitem st_idx prev_s;
  d ← py_index dp (t - 1);
  e ← dict_get prev_s d;
  a ← mat_get A prev_i curr_i;
  o ← py_index obs_ids t;
  b ← mat_get B curr_i o;
  Ok (fmul (fmul e.1 a) b).

(** Lines 88-97: the maximisation over the previous state, from
    [max_prob = -1.0] and [prev_state_chosen = None]. *)
Definition inner_loop (dp : list dict) (t : nat) (curr_i : nat) : result cell :=
  foldM (λ (best : cell) prev_s,
           if decide (prev_s = start_state) then Ok best
           else
             prob ← step_prob dp t curr_i prev_s;
             if decide (best.1 < prob) then Ok (prob, Some prev_s)
             else Ok best)
        (- 1, None) states.

(** Lines 84-99, for one [t]. *)
Definition step_loop (dp : list dict) (t : nat) : result (list dict) :=
  foldM (λ dp curr_s,
           if decide (curr_s = start_state) then Ok dp
           else
             curr_i ← py_getitem st_idx curr_s;
             best ← inner_loop dp t curr_i;
             dp_set dp t curr_s best)
        dp states.

End Viterbi.

(** Lines 67-99: the table [dp] when the forward pass is over. *)
Definition viterbi_dp (obs_seq : list Z) (states obs : list Z) (A B : matrix)
    (st_idx ob_idx : gmap Z nat) : result (list dict) :=
  let T := length obs_seq in
  obs_ids ← mapR (py_getitem ob_idx) obs_seq;
  let dp := replicate T [] in
  dp ← init_loop states A B st_idx obs_ids dp;
  foldM (step_loop states A B st_idx obs_ids) dp (seq 1 (T - 1)).

(** Lines 101-111.  [range(T-1, 0, -1)] is [T-1, ..., 1]. *)
Definition backtrack (T : nat) (dp : list dict) : result (list (option Z)) :=
  last_time_states ← py_last dp;
  final_state ← py_max_key last_time_states;
  path ← foldM (λ path t,
                  d ← py_index dp t;
                  prev ← py_last path;
                  e ← dict_get_opt prev d;
                  Ok (path ++ [e.2]))
               [Some final_state] (reverse (seq 1 (T - 1)));
  Ok (reverse path).

Definition viterbi (obs_seq : list Z) (states obs : list Z) (A B : matrix)
    (st_idx ob_idx : gmap Z nat) : result (list (option Z)) :=
  dp ← viterbi_dp obs_seq states obs A B st_idx ob_idx;
  backtrack (length obs_seq) dp.

(** The call of line 140, on the unpacked model. *)
Definition decode (m : hmm) (obs_seq : list Z) : result (list (option Z)) :=
  viterbi obs_seq (hmm_states m) (hmm_obs m) (hmm_A m) (hmm_B m)
          (hmm_st_idx m) (hmm_ob_idx m).

(** *** The test loop of the script (lines 128-141)

    [lines] are the non-empty stripped lines of the job file; [lines[0]] is
    the dataset path and is not read here. *)
Fixpoint test_loop (m : hmm) (total_tests : nat) (lines : list line)
    (idx : nat) (results : list (list (option Z)))
  : result (list (list (option Z))) :=
  match total_tests with
  | O => Ok results
  | S n =>
      l1 ← py_index lines idx;
      L ← py_int l1;
      l2 ← py_index lines (idx + 1);
      observation_sequence ← py_ints l2;
      best_path ← decode m observation_sequence;
      test_loop m n lines (idx + 2) (results ++ [best_path])
  end.

(** Lines 124-141: [dataset] are the lines of the file named by [lines[0]]. *)
Definition main (dataset : list line) (lines : list line)
  : result (list (list (option Z))) :=
  _ ← py_index lines 0;
  m ← load_hmm dataset;
  l1 ← py_index lines 1;
  total_tests ← py_int l1;
  test_loop m (Z.to_nat total_tests) lines 2 [].

End Code.

(** Exact arithmetic. *)
Definition exact : Qc → Qc := λ x, x.


(** ** Corpora

    A corpus is the list of its runs, a run the pair of its state sequence
    and its observation sequence.  [corpus_file] is the dataset file of a
    corpus: the number of runs, then two lines per run. *)

Abbreviation run := (list Z * list Z)%type.

Definition ints (l : list Z) : line := Some <$> l.

Definition corpus_file (corpus : list run) : list line :=
  [Some (Z.of_nat (length corpus))]
    :: flat_map (λ r : run, [ints r.1; ints r.2]) corpus.

(** The counting pass on parsed runs. *)
Definition scan_corpus (corpus : list run) : counts :=
  foldl (λ c (r : run), scan_run r.1 r.2 c) counts_init corpus.

(** What the counters count, stated on the corpus. *)

(** Positions of [l] holding [a] immediately followed by [b]. *)
Fixpoint n_trans (a b : Z) (l : list Z) : nat :=
  match l with
  | x :: rest =>
      match rest with
      | y :: _ => (if decide (x = a ∧ y = b) then 1 else 0) + n_trans a b rest
      | [] => 0
      end
  | [] => 0
  end%nat.

(** Positions of [l] holding [a] that have a successor. *)
Fixpoint n_out (a : Z) (l : list Z) : nat :=
  match l with
  | x :: rest =>
      match rest with
      | _ :: _ => (if decide (x = a) then 1 else 0) + n_out a rest
      | [] => 0
      end
  | [] => 0
  end%nat.

(** Aligned pairs of a run equal to [(s, o)], and with state [s]. *)
Definition n_emit (s o : Z) (r : run) : nat :=
  length (filter (λ p, p = (s, o)) (zip r.1 r.2)).
Definition n_occ (s : Z) (r : run) : nat :=
  length (filter (λ p : Z * Z, p.1 = s) (zip r.1 r.2)).

Definition total_out (corpus : list run) (s : Z) : nat :=
  sum_list_with (λ r : run, n_out s r.1) corpus.
Definition total_occ (corpus : list run) (s : Z) : nat :=
  sum_list_with (n_occ s) corpus.

(** The sorted label sets of a corpus. *)
Definition corpus_states (corpus : list run) : gset Z :=
  ⋃ ((λ r : run, list_to_set r.1) <$> corpus).
Definition corpus_obs (corpus : list run) : gset Z :=
  ⋃ ((λ r : run, list_to_set r.2) <$> corpus).

(** The entry written by the normalisation loops for a count [c] and a row
    total [t]: [c/t if t > 0 else 0.0]. *)
Definition ratio (rnd : Qc → Qc) (c t : nat) : Qc :=
  if decide (0 < t)%nat then rnd (Qc_of_Z (Z.of_nat c) / Qc_of_Z (Z.of_nat t))
  else 0.

(** The matrices of a corpus, written row by row. *)
Definition matrix_of (rnd : Qc → Qc) (rows cols : list Z)
    (cnt : Z → Z → nat) (total : Z → nat) : matrix :=
  (λ r, (λ col, ratio rnd (cnt r col) (total r)) <$> cols) <$> rows.

(** [estimate(corpus)]: the model of a corpus of parsed runs. *)
Definition estimate (rnd : Qc → Qc) (corpus : list run) : result hmm :=
  normalise rnd (scan_corpus corpus).

(** Occurrences of the pair [(a, b)] as a transition, and of [(s, o)] as an
    emission, in the whole corpus. *)
Definition trans_count (corpus : list run) (a b : Z) : nat :=
  sum_list_with (λ r : run, n_trans a b r.1) corpus.
Definition emit_count (corpus : list run) (s o : Z) : nat :=
  sum_list_with (n_emit s o) corpus.

(** The model of a corpus in closed form: sorted label lists, frequency
    matrices, index maps. *)
Definition model_of (rnd : Qc → Qc) (corpus : list run) : hmm :=
  let states := py_sorted (corpus_states corpus) in
  let obs := py_sorted (corpus_obs corpus) in
  Hmm states obs
      (matrix_of rnd states states (trans_count corpus) (total_out corpus))
      (matrix_of rnd states obs (emit_count corpus) (total_occ corpus))
      (index_map states) (index_map obs).

(** The sum of a row. *)
Definition sumQ (l : list Qc) : Qc := foldr Qcplus 0 l.

(** ** Facts about rounding that the numerical statements rely on

    [quot_err rnd u]: a quotient [c/t] of two counts, [c <= t], is rounded
    with relative error at most [u] (for binary64, [u = 2^-53]; for exact
    arithmetic, [u = 0]).  [rnd_mono] and [rnd_zero]: rounding is monotone
    and leaves [0] alone. *)
Definition quot_err (rnd : Qc → Qc) (u : Qc) : Prop :=
  ∀ c t : nat, (0 < t)%nat → (c ≤ t)%nat →
    let x := Qc_of_Z (Z.of_nat c) / Qc_of_Z (Z.of_nat t) in
    (1 - u) * x ≤ rnd x ∧ rnd x ≤ (1 + u) * x.
Definition rnd_mono (rnd : Qc → Qc) : Prop := ∀ x y, x ≤ y → rnd x ≤ rnd y.
Definition rnd_zero (rnd : Qc → Qc) : Prop := rnd 0 = 0.

#[global] Instance exn_eq_dec : EqDecision exn.
Proof. solve_decision. Defined.
#[global] Instance result_eq_dec {X : Type} `{EqDecision X} :
  EqDecision (result X).
Proof. solve_decision. Defined.
#[global] Instance hmm_eq_dec : EqDecision hmm.
Proof. solve_decision. Defined.

(** ** Well-formed models

    The invariants of the data model, as [load_hmm] establishes them: the
    label lists have no duplicates, the index maps send a label to its
    position, [A] is [N x N], [B] is [N x M], and no entry is negative. *)
Record wf_model (m : hmm) : Prop := WfModel {
  wf_states_nodup : NoDup (hmm_states m);
  wf_obs_nodup : NoDup (hmm_obs m);
  wf_st_idx : hmm_st_idx m = index_map (hmm_states m);
  wf_ob_idx : hmm_ob_idx m = index_map (hmm_obs m);
  wf_A_rows : length (hmm_A m) = length (hmm_states m);
  wf_A_cols : Forall (λ row, length row = length (hmm_states m)) (hmm_A m);
  wf_B_rows : length (hmm_B m) = length (hmm_states m);
  wf_B_cols : Forall (λ row, length row = length (hmm_obs m)) (hmm_B m);
  wf_A_nonneg : Forall (Forall (λ x, 0 ≤ x)) (hmm_A m);
  wf_B_nonneg : Forall (Forall (λ x, 0 ≤ x)) (hmm_B m) }.

(** The job file of a list of test cases [(L, observation labels)]:
    the dataset path, the number of test cases, then two lines per case. *)
Definition job_file (path : line) (tests : list (Z * list Z)) : list line :=
  path :: [Some (Z.of_nat (length tests))]
       :: flat_map (λ tc : Z * list Z, [[Some tc.1]; ints tc.2]) tests.

(** ** The dynamic program of the specification

    Written from the words of the specification, to be compared with
    [viterbi].  [S] is the state space without the sentinel [0];
    [stateIndex] and [obsIndex] are the positions in the sorted label
    sequences; [A[p][s]] and [B[s][o]] are addressed by labels. *)

Definition Qc_max (x y : Qc) : Qc := if decide (x ≤ y) then y else x.

(** [max over p in l of f p] *)
Definition max_over (l : list Z) (f : Z → Qc) : Qc :=
  match l with
  | [] => 0
  | p :: l' => foldl (λ acc q, Qc_max acc (f q)) (f p) l'
  end.

(** [argmax over p in l of f p]: the first candidate encountered that
    achieves a value strictly greater than the current best is kept. *)
Definition argmax_first (l : list Z) (f : Z → Qc) : option Z :=
  match l with
  | [] => None
  | p :: l' => Some (foldl (λ best q, if decide (f best < f q) then q else best)
                           p l')
  end.

(** Position of a label in a duplicate-free sequence. *)
Definition position (l : list Z) (x : Z) : nat :=
  from_option fst 0%nat (list_find (λ y, y = x) l).

Definition entry (M : matrix) (i j : nat) : Qc :=
  default 0 (M !! i ≫= λ row, row !! j).

Section SpecDP.

Context (rnd : Qc → Qc) (m : hmm) (obs_seq : list Z).

Definition candidates : list Z := filter (λ s, s ≠ 0%Z) (hmm_states m).
Definition stateIndex (s : Z) : nat := position (hmm_states m) s.
Definition obsIndex (o : Z) : nat := position (hmm_obs m) o.
Definition spec_A (p s : Z) : Qc := entry (hmm_A m) (stateIndex p) (stateIndex s).
Definition spec_B (s o : Z) : Qc := entry (hmm_B m) (stateIndex s) (obsIndex o).
Definition obs_at (t : nat) : Z := default 0%Z (obs_seq !! t).

(** [score[0][s] = A[0][s] * B[s][obsIndex(o_0)]];
    [score[t][s] = (max over p in S of score[t-1][p] * A[p][s])
                   * B[s][obsIndex(o_t)]]. *)
Fixpoint spec_score (t : nat) (s : Z) : Qc :=
  match t with
  | O => fmul rnd (spec_A 0 s) (spec_B s (obs_at 0))
  | S t' =>
      fmul rnd (max_over candidates (λ p, fmul rnd (spec_score t' p) (spec_A p s)))
           (spec_B s (obs_at (S t')))
  end.

(** [backptr[0][s] = 0]; [backptr[t][s]] is the first [p] in [S] whose
    product [score[t-1][p] * A[p][s] * B[s][obsIndex(o_t)]] is the greatest,
    which is [score[t][s]]. *)
Definition spec_backptr (t : nat) (s : Z) : Z :=
  match t with
  | O => 0%Z
  | S t' =>
      default 0%Z
        (argmax_first candidates
           (λ p, fmul rnd (fmul rnd (spec_score t' p) (spec_A p s))
                      (spec_B s (obs_at (S t')))))
  end.

(** The states met when following the back pointers from [s] at time [t]
    down to time [0]. *)
Fixpoint spec_backtrace (t : nat) (s : Z) : list Z :=
  match t with
  | O => [s]
  | S t' => s :: spec_backtrace t' (spec_backptr (S t') s)
  end.

(** Termination and backtrace; [None] when [S] is empty. *)
Definition spec_decode : option (list Z) :=
  final ← argmax_first candidates (spec_score (length obs_seq - 1));
  Some (reverse (spec_backtrace (length obs_seq - 1) final)).

(** The row of the table at time [t]. *)
Definition spec_row (t : nat) : dict :=
  (λ s, (s, (spec_score t s, Some (spec_backptr t s)))) <$> candidates.

(** The value of line 94 for the previous state [p] and the current state
    [s] at time [t + 1]. *)
Definition step_value (t : nat) (s p : Z) : Qc :=
  fmul rnd (fmul rnd (spec_score t p) (spec_A p s))
       (spec_B s (obs_at (S t))).

(** The table after the steps [1..k]: [k + 1] rows are filled. *)
Definition table (k : nat) : list dict :=
  (spec_row <$> seq 0 (S k)) ++ replicate (length obs_seq - S k) [].

End SpecDP.

(** Every key of the table is a candidate state, and from time 1 on no
    stored predecessor is the start state. *)
Definition dp_wf (dp : list dict) : Prop :=
  ∀ t d k c, dp !! t = Some d → (k, c) ∈ d →
    k ≠ start_state ∧ ((0 < t)%nat → c.2 ≠ Some start_state).

(** The corpus and the model used in the examples. *)
Definition example_corpus : list run :=
  [([0; 1; 2; 1], [5; 5; 6; 5]); ([0; 2; 2], [6; 6; 5])]%Z.
Definition example_model : hmm := model_of exact example_corpus.

(** A corpus in which the observation [7] is emitted by the start state
    only, and a first row of the table, for the examples. *)
Definition start_only_corpus : list run := [([0; 2; 1], [7; 5; 5])]%Z.

(** ** Probability of a path

    [rev_path_score] takes a path in reverse chronological order (last
    state first) and multiplies in the order of [viterbi]: the initial
    factor [A[0][s_0] * B[s_0][o_0]], then for each step the product so far
    times [A[s_(t-1)][s_t]] times [B[s_t][o_t]]. *)
Fixpoint rev_path_score (rnd : Qc → Qc) (m : hmm) (obs_seq : list Z)
    (r : list Z) : Qc :=
  match r with
  | [] => 0
  | s :: r' =>
      match r' with
      | [] => fmul rnd (spec_A m 0 s) (spec_B m s (obs_at obs_seq 0))
      | p :: _ =>
          fmul rnd (fmul rnd (rev_path_score rnd m obs_seq r') (spec_A m p s))
               (spec_B m s (obs_at obs_seq (length r')))
      end
  end.

Definition path_score (rnd : Qc → Qc) (m : hmm) (obs_seq : list Z)
    (path : list Z) : Qc :=
  rev_path_score rnd m obs_seq (reverse path).

(** The model of a dataset without runs. *)
Definition empty_model : hmm := Hmm [] [] [] [] ∅ ∅.

(** * Properties *)

(** ** The result monad *)

Lemma bind_Ok {X Y : Type} (r : result X) (f : X → result Y) (y : Y) :
  r ≫= f = Ok y ↔ ∃ x, r = Ok x ∧ f x = Ok y.
Proof.
  destruct r as [x|e]; simpl; split.
  - eauto.
  - by intros (x' & [= <-] & ?).
  - done.
  - by intros (? & ? & _).
Qed.

Lemma foldM_app {X S : Type} (body : S → X → result S) acc l1 l2 :
  foldM body acc (l1 ++ l2) = acc' ← foldM body acc l1; foldM body acc' l2.
Proof.
  revert acc. induction l1 as [|x l1 IH]; intros acc; simpl; [done|].
  destruct (body acc x) as [acc'|e]; simpl; [apply IH|done].
Qed.

(** A loop invariant carried through a loop that does not raise. *)
Lemma foldM_inv {X S : Type} (P : S → Prop) (body : S → X → result S) l :
  ∀ acc r,
    P acc →
    (∀ a x a', x ∈ l → P a → body a x = Ok a' → P a') →
    foldM body acc l = Ok r → P r.
Proof.
  induction l as [|x l IH]; intros acc r Hacc Hstep; simpl.
  - by intros [= <-].
  - intros (acc' & Hb & Hr)%bind_Ok.
    apply (IH acc' r); [by eapply Hstep; [left|..]| |done].
    intros a y a' Hy. apply Hstep. by right.
Qed.

(** A loop whose body never raises is a plain fold. *)
Lemma foldM_pure {X S : Type} (body : S → X → result S) (g : S → X → S) l :
  ∀ acc, (∀ a x, x ∈ l → body a x = Ok (g a x)) →
         foldM body acc l = Ok (foldl g acc l).
Proof.
  induction l as [|x l IH]; intros acc Hb; simpl; [done|].
  rewrite Hb by left. simpl. apply IH. intros a y Hy. apply Hb. by right.
Qed.

(** [continue] on the elements satisfying [P] is a loop over the others. *)
Lemma foldM_skip {X S : Type} (P : X → Prop) `{!∀ x, Decision (P x)}
    (body : S → X → result S) l :
  ∀ acc, foldM (λ a x, if decide (P x) then Ok a else body a x) acc l
         = foldM body acc (filter (λ x, ¬ P x) l).
Proof.
  induction l as [|x l IH]; intros acc; simpl; [done|].
  rewrite filter_cons. destruct (decide (P x)) as [HP|HP].
  - rewrite decide_False by tauto. simpl. apply IH.
  - rewrite decide_True by done. simpl.
    destruct (body acc x); simpl; [apply IH|done].
Qed.

Lemma mapR_Ok {X Y : Type} (f : X → result Y) (g : X → Y) l :
  (∀ x, x ∈ l → f x = Ok (g x)) → mapR f l = Ok (g <$> l).
Proof.
  induction l as [|x l IH]; intros Hf; simpl; [done|].
  rewrite Hf by left. simpl. rewrite IH; [done|].
  intros y Hy. apply Hf. by right.
Qed.

Lemma mapR_length {X Y : Type} (f : X → result Y) l ys :
  mapR f l = Ok ys → length ys = length l.
Proof.
  revert ys. induction l as [|x l IH]; intros ys; simpl.
  - by intros [= <-].
  - intros (y & _ & (ys' & Hys & [= <-])%bind_Ok)%bind_Ok.
    simpl. f_equal. by apply IH.
Qed.

Lemma py_index_Ok {X : Type} (l : list X) i x :
  py_index l i = Ok x ↔ l !! i = Some x.
Proof. unfold py_index. destruct (l !! i); naive_solver. Qed.

Lemma py_getitem_Ok {V : Type} (d : gmap Z V) k v :
  py_getitem d k = Ok v ↔ d !! k = Some v.
Proof. unfold py_getitem. destruct (d !! k); naive_solver. Qed.

Lemma mat_set_Ok (M : matrix) i j v row :
  M !! i = Some row → (j < length row)%nat →
  mat_set M i j v = Ok (<[i := <[j := v]> row]> M).
Proof.
  intros HM Hj. unfold mat_set, py_index. rewrite HM. simpl.
  by rewrite decide_True.
Qed.

Lemma mat_get_Ok (M : matrix) i j x :
  mat_get M i j = Ok x ↔ ∃ row, M !! i = Some row ∧ row !! j = Some x.
Proof.
  unfold mat_get. rewrite bind_Ok. setoid_rewrite py_index_Ok. done.
Qed.

Lemma py_getitem_None {V : Type} (d : gmap Z V) k :
  d !! k = None → py_getitem d k = Raise (KeyError (Some k)).
Proof. unfold py_getitem. by intros ->. Qed.

Lemma py_last_snoc {X : Type} (l : list X) x : py_last (l ++ [x]) = Ok x.
Proof. unfold py_last. by rewrite last_snoc. Qed.

Lemma py_ints_ints l : py_ints (ints l) = Ok l.
Proof.
  unfold py_ints, ints. induction l as [|z l IH]; [done|].
  rewrite fmap_cons. cbn [mapR py_int_token]. by rewrite IH.
Qed.

(** ** The counters *)

Lemma dd_get_incr d k k' :
  dd_get (dd_incr d k) k' = (dd_get d k' + if decide (k = k') then 1 else 0)%nat.
Proof.
  unfold dd_incr, dd_get. destruct (decide (k = k')) as [->|Hne].
  - rewrite lookup_insert_eq. simpl. lia.
  - rewrite lookup_insert_ne by done. lia.
Qed.

Lemma dd2_get_incr d a b a' b' :
  dd2_get (dd2_incr d a b) a' b'
  = (dd2_get d a' b' + if decide (a = a' ∧ b = b') then 1 else 0)%nat.
Proof.
  unfold dd2_get, dd2_incr, dd2_row at 1. destruct (decide (a = a')) as [->|Hne].
  - rewrite lookup_insert_eq. simpl. rewrite dd_get_incr.
    destruct (decide (b = b')).
    + by rewrite decide_True.
    + by rewrite decide_False by tauto.
  - rewrite lookup_insert_ne by done.
    rewrite decide_False by tauto. unfold dd2_row. lia.
Qed.

Lemma count_transitions_get l : ∀ tc a b,
  dd2_get (count_transitions l tc) a b = (dd2_get tc a b + n_trans a b l)%nat.
Proof.
  induction l as [|x rest IH]; intros tc a b; simpl; [lia|].
  destruct rest as [|y rest']; [lia|].
  rewrite IH, dd2_get_incr. lia.
Qed.

Lemma count_emissions_get ss os ec sc :
  (∀ s o, dd2_get (count_emissions ss os ec sc).1 s o
          = (dd2_get ec s o + n_emit s o (ss, os))%nat)
  ∧ (∀ s, dd_get (count_emissions ss os ec sc).2 s
          = (dd_get sc s + n_occ s (ss, os))%nat).
Proof.
  unfold count_emissions, n_emit, n_occ. simpl.
  generalize (zip ss os). intros l. revert ec sc.
  induction l as [|[s' o'] l IH]; intros ec sc; simpl.
  - split; intros; lia.
  - destruct (IH (dd2_incr ec s' o') (dd_incr sc s')) as [IH1 IH2].
    split.
    + intros s o. rewrite IH1, dd2_get_incr, filter_cons. simpl.
      destruct (decide (s' = s ∧ o' = o)) as [[-> ->]|Hne].
      * rewrite decide_True by done. simpl. lia.
      * rewrite decide_False by naive_solver. lia.
    + intros s. rewrite IH2, dd_get_incr, filter_cons. simpl.
      destruct (decide (s' = s)); simpl; lia.
Qed.

(** The counters after the whole corpus. *)
Lemma scan_corpus_counts corpus :
  let c := scan_corpus corpus in
  (∀ a b, dd2_get (trans_counts c) a b
          = sum_list_with (λ r : run, n_trans a b r.1) corpus)
  ∧ (∀ s o, dd2_get (emiss_counts c) s o = sum_list_with (n_emit s o) corpus)
  ∧ (∀ s, dd_get (state_counts c) s = total_occ corpus s)
  ∧ states_set c = corpus_states corpus
  ∧ obs_set c = corpus_obs corpus.
Proof.
  unfold scan_corpus, total_occ, corpus_states, corpus_obs.
  assert (∀ c0,
    let c := foldl (λ c (r : run), scan_run r.1 r.2 c) c0 corpus in
    (∀ a b, dd2_get (trans_counts c) a b
       = (dd2_get (trans_counts c0) a b
          + sum_list_with (λ r : run, n_trans a b r.1) corpus)%nat)
    ∧ (∀ s o, dd2_get (emiss_counts c) s o
       = (dd2_get (emiss_counts c0) s o + sum_list_with (n_emit s o) corpus)%nat)
    ∧ (∀ s, dd_get (state_counts c) s
       = (dd_get (state_counts c0) s + sum_list_with (n_occ s) corpus)%nat)
    ∧ states_set c
      = states_set c0 ∪ ⋃ ((λ r : run, list_to_set r.1) <$> corpus)
    ∧ obs_set c
      = obs_set c0 ∪ ⋃ ((λ r : run, list_to_set r.2) <$> corpus)) as Hgen.
  { induction corpus as [|[ss os] corpus IH]; intros c0; simpl.
    - repeat split; intros; try lia; set_solver.
    - destruct (IH (scan_run ss os c0)) as (IH1 & IH2 & IH3 & IH4 & IH5).
      destruct (count_emissions_get ss os (emiss_counts c0) (state_counts c0))
        as [He Hs].
      repeat split.
      + intros a b. rewrite IH1. simpl. rewrite count_transitions_get. lia.
      + intros s o. rewrite IH2. simpl. rewrite He. lia.
      + intros s. rewrite IH3. simpl. rewrite Hs. lia.
      + rewrite IH4. simpl. set_solver.
      + rewrite IH5. simpl. set_solver. }
  destruct (Hgen counts_init) as (H1 & H2 & H3 & H4 & H5). simpl in *.
  repeat split.
  - intros a b. rewrite H1. done.
  - intros s o. rewrite H2. done.
  - intros s. rewrite H3. done.
  - rewrite H4. set_solver.
  - rewrite H5. set_solver.
Qed.

(** Reading the dataset file of a corpus gives back its runs. *)
Lemma scan_runs_corpus corpus : ∀ pre c0,
  scan_runs (length corpus)
            (pre ++ flat_map (λ r : run, [ints r.1; ints r.2]) corpus)
            (length pre) c0
  = Ok (foldl (λ c (r : run), scan_run r.1 r.2 c) c0 corpus).
Proof.
  induction corpus as [|[ss os] corpus IH]; intros pre c0; simpl; [done|].
  unfold py_index.
  rewrite (list_lookup_middle pre _ _ (length pre)) by done. simpl.
  rewrite py_ints_ints. simpl.
  rewrite (lookup_app_r pre _ (length pre + 1)) by lia.
  replace (length pre + 1 - length pre)%nat with 1%nat by lia. simpl.
  rewrite py_ints_ints. simpl.
  specialize (IH (pre ++ [ints ss; ints os]) (scan_run ss os c0)).
  rewrite <- app_assoc, length_app in IH. simpl in IH. apply IH.
Qed.

Lemma count_pass_corpus_file corpus :
  count_pass (corpus_file corpus) = Ok (scan_corpus corpus).
Proof.
  unfold count_pass, corpus_file. simpl. rewrite Nat2Z.id.
  apply (scan_runs_corpus corpus [[Some (Z.of_nat (length corpus))]]).
Qed.

(** ** Index maps and sorted label lists *)

Lemma index_map_gen l : ∀ k d x,
  NoDup l →
  let r := foldl (λ (d : gmap Z nat) p, <[p.2 := p.1]> d) d
                 (zip (seq k (length l)) l) !! x in
  (∀ i, l !! i = Some x → r = Some (k + i)%nat) ∧ (x ∉ l → r = d !! x).
Proof.
  induction l as [|y l IH]; intros k d x Hnd; simpl.
  - split; [by intros i|done].
  - apply NoDup_cons in Hnd as [Hy Hnd].
    destruct (IH (S k) (<[y:=k]> d) x Hnd) as [IH1 IH2]. simpl in *.
    split.
    + intros [|i] Hi; simpl in Hi.
      * injection Hi as ->. rewrite IH2 by done.
        rewrite lookup_insert_eq. f_equal. lia.
      * rewrite (IH1 i Hi). f_equal. lia.
    + intros Hx. apply not_elem_of_cons in Hx as [Hxy Hx].
      rewrite IH2 by done. by rewrite lookup_insert_ne.
Qed.

Lemma index_map_lookup l x i :
  NoDup l → index_map l !! x = Some i ↔ l !! i = Some x.
Proof.
  intros Hnd. destruct (index_map_gen l 0 ∅ x Hnd) as [H1 H2].
  unfold index_map. simpl in *. split.
  - intros Hi. destruct (decide (x ∈ l)) as [Hx|Hx].
    + apply list_elem_of_lookup in Hx as [j Hj].
      rewrite (H1 j Hj) in Hi. by injection Hi as <-.
    + rewrite H2, lookup_empty in Hi by done. done.
  - intros Hi. by rewrite (H1 i Hi).
Qed.

Lemma index_map_None l x : NoDup l → index_map l !! x = None ↔ x ∉ l.
Proof.
  intros Hnd. destruct (index_map_gen l 0 ∅ x Hnd) as [H1 H2].
  unfold index_map. simpl in *. split.
  - intros Hn [j Hj]%list_elem_of_lookup. by rewrite (H1 j Hj) in Hn.
  - intros Hx. by rewrite H2, lookup_empty.
Qed.

Lemma py_sorted_perm s : py_sorted s ≡ₚ elements s.
Proof. apply merge_sort_Permutation. Qed.

Lemma py_sorted_NoDup s : NoDup (py_sorted s).
Proof. rewrite py_sorted_perm. apply NoDup_elements. Qed.

Lemma elem_of_py_sorted s x : x ∈ py_sorted s ↔ x ∈ s.
Proof. rewrite py_sorted_perm. apply elem_of_elements. Qed.

Lemma py_sorted_sorted s : StronglySorted Z.le (py_sorted s).
Proof. apply StronglySorted_merge_sort; apply _. Qed.

(** ** Normalisation fills the matrices and never raises *)

Section Normalise.

Context (rnd : Qc → Qc).

Lemma truediv_guarded c t :
  (if decide (0 < t)%nat then py_truediv rnd c t else Ok 0)
  = Ok (ratio rnd c t).
Proof.
  unfold ratio. destruct (decide (0 < t)%nat) as [Ht|Ht]; [|done].
  destruct t; [lia|done].
Qed.

Lemma fill_row_spec cols cnt total i : ∀ todo done M row,
  NoDup cols →
  cols = done ++ todo →
  M !! i = Some row →
  length row = length cols →
  fill_row rnd todo (index_map cols) cnt total i M
  = Ok (<[i := take (length done) row
               ++ ((λ col, ratio rnd (cnt col) total) <$> todo)]> M).
Proof.
  unfold fill_row.
  induction todo as [|col todo IH]; intros done M row Hnd Hcols HM Hlen; simpl.
  - rewrite app_nil_r in *. subst cols.
    rewrite firstn_all2 by lia. by rewrite list_insert_id.
  - assert (index_map cols !! col = Some (length done)) as Hj.
    { apply index_map_lookup; [done|]. subst cols.
      by apply list_lookup_middle. }
    rewrite (proj2 (py_getitem_Ok _ _ _) Hj). simpl.
    rewrite truediv_guarded. simpl.
    assert (length done < length row)%nat as Hlt.
    { rewrite Hlen, Hcols, length_app. simpl. lia. }
    set (v := ratio rnd (cnt col) total).
    rewrite (mat_set_Ok M i (length done) v row HM Hlt). simpl.
    rewrite (IH (done ++ [col]) _ (<[length done := v]> row)); first last.
    + by rewrite length_insert.
    + apply list_lookup_insert_eq. by eapply lookup_lt_Some.
    + by rewrite <- app_assoc.
    + done.
    + rewrite list_insert_insert_eq. do 2 f_equal.
      rewrite length_app. simpl.
      replace (length done + 1)%nat with (S (length done)) by lia.
      rewrite take_S_r with (x := v) by (by apply list_lookup_insert_eq).
      rewrite take_insert_ge by lia. by rewrite <- app_assoc.
Qed.

Lemma fill_matrix_spec rows cols cnt total : ∀ todo done M,
  NoDup rows → NoDup cols →
  rows = done ++ todo →
  length M = length rows →
  Forall (λ row, length row = length cols) M →
  fill_matrix rnd todo cols (index_map rows) (index_map cols) cnt total M
  = Ok (take (length done) M ++ matrix_of rnd todo cols cnt total).
Proof.
  unfold fill_matrix, matrix_of.
  induction todo as [|r todo IH]; intros done M Hr Hc Hrows HlenM Hall; simpl.
  - rewrite app_nil_r in *. subst rows. by rewrite firstn_all2 by lia.
  - assert (index_map rows !! r = Some (length done)) as Hi.
    { apply index_map_lookup; [done|]. subst rows.
      by apply list_lookup_middle. }
    rewrite (proj2 (py_getitem_Ok _ _ _) Hi). simpl.
    assert (length done < length M)%nat as Hlt.
    { rewrite HlenM, Hrows, length_app. simpl. lia. }
    destruct (lookup_lt_is_Some_2 M _ Hlt) as [row Hrow].
    rewrite (fill_row_spec cols (cnt r) (total r) (length done) cols [] M row);
      [|done|done|done|].
    2:{ by eapply (proj1 (Forall_lookup _ _) Hall). }
    simpl.
    set (new := (λ col, ratio rnd (cnt r col) (total r)) <$> cols).
    rewrite (IH (done ++ [r]) (<[length done := new]> M)); first last.
    + apply Forall_insert; [done|]. unfold new. by rewrite length_fmap.
    + by rewrite length_insert.
    + by rewrite <- app_assoc.
    + done.
    + done.
    + f_equal. rewrite length_app. simpl.
      replace (length done + 1)%nat with (S (length done)) by lia.
      rewrite take_S_r with (x := new) by (by apply list_lookup_insert_eq).
      rewrite take_insert_ge by lia. by rewrite <- app_assoc.
Qed.

Lemma fill_matrix_zeros rows cols cnt total :
  NoDup rows → NoDup cols →
  fill_matrix rnd rows cols (index_map rows) (index_map cols) cnt total
              (zeros (length rows) (length cols))
  = Ok (matrix_of rnd rows cols cnt total).
Proof.
  intros Hr Hc.
  rewrite (fill_matrix_spec rows cols cnt total rows []); try done.
  - unfold zeros. by rewrite length_replicate.
  - unfold zeros. apply Forall_replicate. by rewrite length_replicate.
Qed.

(** The model of a table of counters, in closed form. *)
Lemma normalise_spec c :
  normalise rnd c
  = let states := py_sorted (states_set c) in
    let obs := py_sorted (obs_set c) in
    Ok (Hmm states obs
          (matrix_of rnd states states (dd2_get (trans_counts c))
                     (total_transitions (trans_counts c) states))
          (matrix_of rnd states obs (dd2_get (emiss_counts c))
                     (dd_get (state_counts c)))
          (index_map states) (index_map obs)).
Proof.
  unfold normalise.
  rewrite !fill_matrix_zeros by apply py_sorted_NoDup. done.
Qed.

Lemma load_hmm_corpus_file corpus :
  load_hmm rnd (corpus_file corpus) = estimate rnd corpus.
Proof. unfold load_hmm. by rewrite count_pass_corpus_file. Qed.

(** [construct.py] computes the two matrices of [load_hmm]. *)
Lemma construct_load_hmm lines :
  construct rnd lines = m ← load_hmm rnd lines; Ok (hmm_A m, hmm_B m).
Proof.
  unfold construct, load_hmm. destruct (count_pass lines) as [c|e]; [|done].
  simpl. rewrite normalise_spec.
  rewrite !fill_matrix_zeros by apply py_sorted_NoDup. done.
Qed.

End Normalise.

(** ** Row totals *)

Lemma sum_list_with_add {X : Type} (f g : X → nat) l :
  sum_list_with (λ x, f x + g x)%nat l
  = (sum_list_with f l + sum_list_with g l)%nat.
Proof. induction l as [|x l IH]; simpl; lia. Qed.

Lemma sum_list_with_ext {X : Type} (f g : X → nat) l :
  (∀ x, x ∈ l → f x = g x) → sum_list_with f l = sum_list_with g l.
Proof.
  induction l as [|x l IH]; intros Hfg; simpl; [done|].
  rewrite Hfg by left. rewrite IH; [done|]. intros y Hy. apply Hfg. by right.
Qed.

Lemma sum_list_fmap_with {X : Type} (f : X → nat) l :
  sum_list (map f l) = sum_list_with f l.
Proof. induction l as [|x l IH]; simpl; [done|]. by rewrite IH. Qed.

Lemma sum_list_with_swap {X Y : Type} (f : X → Y → nat) lx ly :
  sum_list_with (λ y, sum_list_with (λ x, f x y) lx) ly
  = sum_list_with (λ x, sum_list_with (f x) ly) lx.
Proof.
  induction lx as [|x lx IH]; simpl.
  - induction ly; simpl; [done|lia].
  - rewrite sum_list_with_add. by rewrite IH.
Qed.

(** A label occurs once in a duplicate-free list. *)
Lemma sum_indicator (P : Prop) `{!Decision P} (y : Z) l :
  NoDup l → y ∈ l →
  sum_list_with (λ b, if decide (P ∧ y = b) then 1 else 0)%nat l
  = if decide P then 1%nat else 0%nat.
Proof.
  induction l as [|x l IH]; intros Hnd Hy; simpl.
  - by apply elem_of_nil in Hy.
  - apply NoDup_cons in Hnd as [Hx Hnd].
    apply elem_of_cons in Hy as [->|Hy].
    + rewrite (sum_list_with_ext _ (λ _, 0%nat)).
      * clear. destruct (decide P); [rewrite decide_True by done
                                    |rewrite decide_False by tauto];
          induction l; simpl; lia.
      * intros b Hb. rewrite decide_False; [done|]. intros [_ ->]. done.
    + rewrite IH by done. rewrite decide_False; [done|].
      intros [_ ->]. done.
Qed.

Lemma n_trans_row_sum a ss l :
  NoDup l → (∀ x, x ∈ ss → x ∈ l) →
  sum_list_with (λ b, n_trans a b ss) l = n_out a ss.
Proof.
  intros Hnd. induction ss as [|x rest IH]; intros Hin.
  - simpl. induction l; simpl; [done|]. apply IHl. by apply NoDup_cons in Hnd as [_ ?].
    intros ? []%elem_of_nil.
  - destruct rest as [|y rest'].
    + simpl. clear. induction l; simpl; lia.
    + change (n_trans a ?b (x :: y :: rest'))
        with ((if decide (x = a ∧ y = b) then 1 else 0)
              + n_trans a b (y :: rest'))%nat.
      rewrite sum_list_with_add, IH.
      2:{ intros z Hz. apply Hin. by right. }
      rewrite sum_indicator; [done|done|].
      apply Hin. right. left.
Qed.

Lemma n_emit_row_sum s r l :
  NoDup l → (∀ o, o ∈ r.2 → o ∈ l) →
  sum_list_with (λ o, n_emit s o r) l = n_occ s r.
Proof.
  intros Hnd Hin. unfold n_emit, n_occ.
  assert (∀ p, p ∈ zip r.1 r.2 → p.2 ∈ l) as Hz.
  { intros [a b] Hp. apply Hin. simpl.
    apply (elem_of_zip_r a b r.1 r.2 Hp). }
  revert Hz. generalize (zip r.1 r.2). intros zs.
  induction zs as [|[s' o'] zs IH]; intros Hz.
  - simpl. clear. induction l; simpl; lia.
  - rewrite (sum_list_with_ext _
      (λ o, (if decide (s' = s ∧ o' = o) then 1 else 0)
            + length (filter (λ p, p = (s, o)) zs))%nat).
    2:{ intros o _. rewrite filter_cons.
        destruct (decide ((s', o') = (s, o))) as [[= -> ->]|Hne].
        - by rewrite decide_True.
        - rewrite decide_False; [done|]. intros [-> ->]. done. }
    rewrite sum_list_with_add, IH.
    2:{ intros p Hp. apply Hz. by right. }
    rewrite sum_indicator; [|done|].
    2:{ apply (Hz (s', o')). left. }
    rewrite filter_cons. simpl. destruct (decide (s' = s)); simpl; lia.
Qed.

Lemma elem_of_corpus_states corpus x :
  x ∈ corpus_states corpus ↔ ∃ r : run, r ∈ corpus ∧ x ∈ r.1.
Proof.
  unfold corpus_states. rewrite elem_of_union_list. split.
  - intros (X & (r & -> & Hr)%list_elem_of_fmap & Hx).
    exists r. split; [done|]. by apply elem_of_list_to_set in Hx.
  - intros (r & Hr & Hx). exists (list_to_set r.1). split.
    + apply list_elem_of_fmap. by exists r.
    + by apply elem_of_list_to_set.
Qed.

Lemma elem_of_corpus_obs corpus x :
  x ∈ corpus_obs corpus ↔ ∃ r : run, r ∈ corpus ∧ x ∈ r.2.
Proof.
  unfold corpus_obs. rewrite elem_of_union_list. split.
  - intros (X & (r & -> & Hr)%list_elem_of_fmap & Hx).
    exists r. split; [done|]. by apply elem_of_list_to_set in Hx.
  - intros (r & Hr & Hx). exists (list_to_set r.2). split.
    + apply list_elem_of_fmap. by exists r.
    + by apply elem_of_list_to_set.
Qed.

(** The total used for a row of [A] is the number of transitions leaving
    the state; the total used for a row of [B] is the sum of its counts. *)
Lemma trans_count_row_sum corpus s :
  sum_list_with (trans_count corpus s) (py_sorted (corpus_states corpus))
  = total_out corpus s.
Proof.
  unfold trans_count, total_out. rewrite sum_list_with_swap.
  apply sum_list_with_ext. intros r Hr.
  apply n_trans_row_sum; [apply py_sorted_NoDup|].
  intros x Hx. apply elem_of_py_sorted, elem_of_corpus_states. eauto.
Qed.

Lemma emit_count_row_sum corpus s :
  sum_list_with (emit_count corpus s) (py_sorted (corpus_obs corpus))
  = total_occ corpus s.
Proof.
  unfold emit_count, total_occ. rewrite sum_list_with_swap.
  apply sum_list_with_ext. intros r Hr.
  apply n_emit_row_sum; [apply py_sorted_NoDup|].
  intros x Hx. apply elem_of_py_sorted, elem_of_corpus_obs. eauto.
Qed.

Lemma matrix_of_ext rnd rows cols cnt cnt' total total' :
  (∀ r c, r ∈ rows → c ∈ cols → cnt r c = cnt' r c) →
  (∀ r, r ∈ rows → total r = total' r) →
  matrix_of rnd rows cols cnt total = matrix_of rnd rows cols cnt' total'.
Proof.
  intros Hc Ht. unfold matrix_of.
  apply list_fmap_ext. intros i r Hr%list_elem_of_lookup_2.
  apply list_fmap_ext. intros j c Hcc%list_elem_of_lookup_2.
  by rewrite Hc, Ht.
Qed.

(** Estimation in closed form: it never raises. *)
Lemma estimate_model_of rnd corpus :
  estimate rnd corpus = Ok (model_of rnd corpus).
Proof.
  unfold estimate, model_of. rewrite normalise_spec.
  destruct (scan_corpus_counts corpus) as (Ht & He & Hs & Hst & Hob).
  simpl in *. rewrite Hst, Hob. do 2 f_equal.
  - apply matrix_of_ext; [intros; apply Ht|].
    intros r _. unfold total_transitions. rewrite sum_list_fmap_with.
    rewrite <- trans_count_row_sum. apply sum_list_with_ext.
    intros b _. apply Ht.
  - apply matrix_of_ext; [intros; apply He|]. intros; apply Hs.
Qed.

(** ** Row sums of the estimated matrices *)

Lemma quot_num_split (c n t : nat) :
  (0 < t)%nat →
  Qc_of_Z (Z.of_nat (c + n)) / Qc_of_Z (Z.of_nat t)
  = Qc_of_Z (Z.of_nat c) / Qc_of_Z (Z.of_nat t)
    + Qc_of_Z (Z.of_nat n) / Qc_of_Z (Z.of_nat t).
Proof.
  intros Ht. rewrite Nat2Z.inj_add, Z2Qc_inj_add. field.
  rewrite <- Z2Qc_inj_0. intros ?%Z2Qc_inj. lia.
Qed.

Lemma quot_self (t : nat) :
  (0 < t)%nat → Qc_of_Z (Z.of_nat t) / Qc_of_Z (Z.of_nat t) = 1.
Proof.
  intros Ht. field. rewrite <- Z2Qc_inj_0. intros ?%Z2Qc_inj. lia.
Qed.

Lemma sum_ratio_bounds rnd u (cs : list nat) (t : nat) :
  quot_err rnd u → (0 < t)%nat → sum_list cs = t →
  1 - u ≤ sumQ ((λ c, ratio rnd c t) <$> cs)
  ∧ sumQ ((λ c, ratio rnd c t) <$> cs) ≤ 1 + u.
Proof.
  intros Herr Ht Hsum.
  assert (∀ l, (sum_list l ≤ t)%nat →
    let x := Qc_of_Z (Z.of_nat (sum_list l)) / Qc_of_Z (Z.of_nat t) in
    (1 - u) * x ≤ sumQ ((λ c, ratio rnd c t) <$> l)
    ∧ sumQ ((λ c, ratio rnd c t) <$> l) ≤ (1 + u) * x) as Hgen.
  { induction l as [|c l IH]; intros Hle; simpl in *.
    - change (Z.of_nat 0) with 0%Z.
      unfold Qcdiv. rewrite Z2Qc_inj_0, Qcmult_0_l, !Qcmult_0_r. done.
    - destruct IH as [IH1 IH2]; [lia|].
      destruct (Herr c t Ht) as [H1 H2]; [lia|]. simpl in H1, H2.
      unfold ratio at 1 3. rewrite decide_True by done.
      rewrite quot_num_split by done.
      rewrite !Qcmult_plus_distr_r.
      split; by apply Qcplus_le_compat. }
  destruct (Hgen cs) as [H1 H2]; [lia|]. simpl in *.
  rewrite Hsum, quot_self, !Qcmult_1_r in H1, H2 by done. done.
Qed.

Lemma matrix_of_row rnd rows cols cnt total i r :
  rows !! i = Some r →
  matrix_of rnd rows cols cnt total !! i
  = Some ((λ c, ratio rnd c (total r)) <$> (cnt r <$> cols)).
Proof.
  intros Hr. unfold matrix_of. rewrite list_lookup_fmap, Hr. simpl.
  by rewrite <- list_fmap_compose.
Qed.

Lemma ratio_zero_total rnd c : ratio rnd c 0 = 0.
Proof. done. Qed.

(** Both rows of a state of the estimated model. *)
Lemma model_of_rows rnd u corpus i s :
  quot_err rnd u →
  hmm_states (model_of rnd corpus) !! i = Some s →
  ∃ rowA rowB,
    hmm_A (model_of rnd corpus) !! i = Some rowA
    ∧ hmm_B (model_of rnd corpus) !! i = Some rowB
    ∧ ((0 < total_out corpus s)%nat → 1 - u ≤ sumQ rowA ∧ sumQ rowA ≤ 1 + u)
    ∧ (total_out corpus s = 0%nat → ∀ x, x ∈ rowA → x = 0)
    ∧ ((0 < total_occ corpus s)%nat → 1 - u ≤ sumQ rowB ∧ sumQ rowB ≤ 1 + u)
    ∧ (total_occ corpus s = 0%nat → ∀ x, x ∈ rowB → x = 0).
Proof.
  intros Herr Hs. simpl in *.
  eexists _, _. split; [by apply matrix_of_row|].
  split; [by apply matrix_of_row|].
  repeat split.
  - apply sum_ratio_bounds; [done..|].
    rewrite sum_list_fmap_with. apply trans_count_row_sum.
  - apply sum_ratio_bounds; [done..|].
    rewrite sum_list_fmap_with. apply trans_count_row_sum.
  - intros H0 x (c & -> & _)%list_elem_of_fmap. by rewrite H0.
  - apply sum_ratio_bounds; [done..|].
    rewrite sum_list_fmap_with. apply emit_count_row_sum.
  - apply sum_ratio_bounds; [done..|].
    rewrite sum_list_fmap_with. apply emit_count_row_sum.
  - intros H0 x (c & -> & _)%list_elem_of_fmap. by rewrite H0.
Qed.

Lemma model_of_dims rnd corpus :
  let m := model_of rnd corpus in
  length (hmm_A m) = length (hmm_states m)
  ∧ length (hmm_B m) = length (hmm_states m)
  ∧ Forall (λ row, length row = length (hmm_states m)) (hmm_A m)
  ∧ Forall (λ row, length row = length (hmm_obs m)) (hmm_B m).
Proof.
  simpl. unfold matrix_of. rewrite !length_fmap. repeat split.
  - apply Forall_fmap, Forall_forall. intros r _. simpl. by rewrite length_fmap.
  - apply Forall_fmap, Forall_forall. intros r _. simpl. by rewrite length_fmap.
Qed.

Lemma load_hmm_model_of rnd corpus :
  load_hmm rnd (corpus_file corpus) = Ok (model_of rnd corpus).
Proof. by rewrite load_hmm_corpus_file, estimate_model_of. Qed.

Lemma construct_model_of rnd corpus :
  construct rnd (corpus_file corpus)
  = Ok (hmm_A (model_of rnd corpus), hmm_B (model_of rnd corpus)).
Proof. by rewrite construct_load_hmm, load_hmm_model_of. Qed.

(** The only exceptions of estimation come from reading the file. *)
Lemma scan_runs_raise n lines : ∀ idx c e,
  scan_runs n lines idx c = Raise e → e = IndexError ∨ e = ValueError.
Proof.
  assert (∀ l e, py_ints l = Raise e → e = ValueError) as Hints.
  { unfold py_ints. induction l as [|[z|] l IH]; intros e; simpl; [done| |].
    - destruct (mapR py_int_token l); simpl; [done|]. intros [= <-]. by apply IH.
    - by intros [= <-]. }
  induction n as [|n IH]; intros idx c e; simpl; [done|].
  unfold py_index.
  destruct (lines !! idx) as [l1|]; simpl; [|intros [= <-]; by left].
  destruct (py_ints l1) as [ss|e1] eqn:E1; simpl;
    [|intros [= <-]; right; by eapply Hints].
  destruct (lines !! (idx + 1)%nat) as [l2|]; simpl; [|intros [= <-]; by left].
  destruct (py_ints l2) as [os|e2] eqn:E2; simpl;
    [|intros [= <-]; right; by eapply Hints].
  apply IH.
Qed.

Lemma load_hmm_raise rnd lines e :
  load_hmm rnd lines = Raise e → e = IndexError ∨ e = ValueError.
Proof.
  unfold load_hmm, count_pass, py_index.
  destruct (lines !! 0%nat) as [l0|]; simpl; [|intros [= <-]; by left].
  destruct (py_int l0) as [n|e0] eqn:E0; simpl.
  - destruct (scan_runs _ _ _ _) as [c|e1] eqn:E1; simpl.
    + by rewrite normalise_spec.
    + intros [= <-]. by eapply scan_runs_raise.
  - intros [= <-]. right. unfold py_int in E0.
    destruct l0 as [|[z|] [|??]]; simpl in E0; congruence.
Qed.

(** ** Estimation: the claims *)

Lemma quot_err_exact : quot_err exact 0.
Proof.
  intros c t _ _. unfold exact. simpl.
  replace (1 - 0) with 1 by ring. replace (1 + 0) with 1 by ring.
  rewrite Qcmult_1_l. done.
Qed.

(** C2.  For every corpus, every row of the estimated transition matrix
    whose state has at least one outgoing transition in the corpus sums to 1
    up to the relative rounding error [u] of a quotient of counts, every row
    whose state has none is entirely [0]; the same holds for the emission
    matrix with respect to the occurrences of the state in aligned
    state/observation pairs.  The matrices are those of [load_hmm] and of
    [construct.py], one row per state. *)
Theorem estimated_rows_stochastic rnd u (corpus : list run) :
  quot_err rnd u →
  ∃ m,
    load_hmm rnd (corpus_file corpus) = Ok m
    ∧ construct rnd (corpus_file corpus) = Ok (hmm_A m, hmm_B m)
    ∧ length (hmm_A m) = length (hmm_states m)
    ∧ length (hmm_B m) = length (hmm_states m)
    ∧ ∀ i s, hmm_states m !! i = Some s →
        ∃ rowA rowB,
          hmm_A m !! i = Some rowA
          ∧ hmm_B m !! i = Some rowB
          ∧ ((0 < total_out corpus s)%nat →
             1 - u ≤ sumQ rowA ∧ sumQ rowA ≤ 1 + u)
          ∧ (total_out corpus s = 0%nat → ∀ x, x ∈ rowA → x = 0)
          ∧ ((0 < total_occ corpus s)%nat →
             1 - u ≤ sumQ rowB ∧ sumQ rowB ≤ 1 + u)
          ∧ (total_occ corpus s = 0%nat → ∀ x, x ∈ rowB → x = 0).
Proof.
  intros Herr. exists (model_of rnd corpus).
  split; [apply load_hmm_model_of|].
  split; [apply construct_model_of|].
  destruct (model_of_dims rnd corpus) as (HA & HB & _).
  do 2 (split; [done|]).
  intros i s Hs. by apply (model_of_rows rnd u).
Qed.

Lemma estimated_rows_stochastic_witness :
  quot_err exact 0
  ∧ ∃ m,
      load_hmm exact (corpus_file [([1; 1; 2], [5; 5; 6])%Z]) = Ok m
      ∧ construct exact (corpus_file [([1; 1; 2], [5; 5; 6])%Z])
        = Ok (hmm_A m, hmm_B m)
      ∧ length (hmm_A m) = length (hmm_states m)
      ∧ length (hmm_B m) = length (hmm_states m)
      ∧ ∀ i s, hmm_states m !! i = Some s →
          ∃ rowA rowB,
            hmm_A m !! i = Some rowA
            ∧ hmm_B m !! i = Some rowB
            ∧ ((0 < total_out [([1; 1; 2], [5; 5; 6])%Z] s)%nat →
               1 - 0 ≤ sumQ rowA ∧ sumQ rowA ≤ 1 + 0)
            ∧ (total_out [([1; 1; 2], [5; 5; 6])%Z] s = 0%nat →
               ∀ x, x ∈ rowA → x = 0)
            ∧ ((0 < total_occ [([1; 1; 2], [5; 5; 6])%Z] s)%nat →
               1 - 0 ≤ sumQ rowB ∧ sumQ rowB ≤ 1 + 0)
            ∧ (total_occ [([1; 1; 2], [5; 5; 6])%Z] s = 0%nat →
               ∀ x, x ∈ rowB → x = 0).
Proof.
  split; [apply quot_err_exact|].
  apply (estimated_rows_stochastic exact 0 [([1; 1; 2], [5; 5; 6])%Z]).
  apply quot_err_exact.
Defined.

(** The example of the specification: one run with states [1 1 2] and
    observations [5 5 6]. *)
Example estimation_example :
  load_hmm exact (corpus_file [([1; 1; 2], [5; 5; 6])%Z])
  = Ok (Hmm [1; 2]%Z [5; 6]%Z
            [[Q2Qc (1 # 2); Q2Qc (1 # 2)]; [0; 0]]
            [[1; 0]; [0; 1]]
            (index_map [1; 2]%Z) (index_map [5; 6]%Z)).
Proof. apply (bool_decide_unpack _). by vm_compute. Qed.

Lemma mismatched_run_model :
  load_hmm exact (corpus_file [([1; 2; 3], [5; 6])%Z])
  = Ok (Hmm [1; 2; 3]%Z [5; 6]%Z
            [[0; 1; 0]; [0; 0; 1]; [0; 0; 0]]
            [[1; 0]; [0; 1]; [0; 0]]
            (index_map [1; 2; 3]%Z) (index_map [5; 6]%Z)).
Proof. apply (bool_decide_unpack _). by vm_compute. Qed.

(** C3, counterexample.  A corpus whose only run has three states and two
    observations is estimated without any exception. *)
Lemma mismatched_run_is_estimated :
  length [1; 2; 3]%Z ≠ length [5; 6]%Z
  ∧ load_hmm exact (corpus_file [([1; 2; 3], [5; 6])%Z])
    = Ok (Hmm [1; 2; 3]%Z [5; 6]%Z
              [[0; 1; 0]; [0; 0; 1]; [0; 0; 0]]
              [[1; 0]; [0; 1]; [0; 0]]
              (index_map [1; 2; 3]%Z) (index_map [5; 6]%Z))
  ∧ construct exact (corpus_file [([1; 2; 3], [5; 6])%Z])
    = Ok ([[0; 1; 0]; [0; 0; 1]; [0; 0; 0]], [[1; 0]; [0; 1]; [0; 0]]).
Proof.
  split; [simpl; lia|].
  split; [apply mismatched_run_model|].
  by rewrite construct_load_hmm, mismatched_run_model.
Qed.

(** C3, as the code has it.  Estimation checks no lengths: on every corpus
    of parsed runs, with or without runs of mismatched lengths, [load_hmm]
    and [construct.py] return the complete model [model_of], in which the
    emission counters count the aligned pairs only (up to the end of the
    shorter sequence).  On arbitrary lines the only exceptions are those of
    reading the file: [IndexError] (a line is missing) and [ValueError] (a
    token is not an integer, or the first line is not one integer). *)
Theorem estimation_total rnd (corpus : list run) (lines : list line) :
  load_hmm rnd (corpus_file corpus) = Ok (model_of rnd corpus)
  ∧ construct rnd (corpus_file corpus)
    = Ok (hmm_A (model_of rnd corpus), hmm_B (model_of rnd corpus))
  ∧ match load_hmm rnd lines with
    | Ok _ => True
    | Raise e => e = IndexError ∨ e = ValueError
    end.
Proof.
  split; [apply load_hmm_model_of|].
  split; [apply construct_model_of|].
  destruct (load_hmm rnd lines) as [m|e] eqn:E; [done|].
  by eapply load_hmm_raise.
Qed.

(** ** Order of the runs *)

Lemma model_of_Permutation rnd (c1 c2 : list run) :
  c1 ≡ₚ c2 → model_of rnd c1 = model_of rnd c2.
Proof.
  intros Hp.
  assert (corpus_states c1 = corpus_states c2) as Hs.
  { apply set_eq. intros x. rewrite !elem_of_corpus_states.
    by setoid_rewrite Hp. }
  assert (corpus_obs c1 = corpus_obs c2) as Ho.
  { apply set_eq. intros x. rewrite !elem_of_corpus_obs.
    by setoid_rewrite Hp. }
  unfold model_of. rewrite Hs, Ho. simpl. f_equal.
  - apply matrix_of_ext; intros; unfold trans_count, total_out; by rewrite Hp.
  - apply matrix_of_ext; intros; unfold emit_count, total_occ; by rewrite Hp.
Qed.

(** C8.  Permuting the runs of a corpus changes nothing in the result of
    estimation: same state list, observation list, matrices and index maps
    from [load_hmm], same two matrices from [construct.py]. *)
Theorem estimation_order_irrelevant rnd (c1 c2 : list run) :
  c1 ≡ₚ c2 →
  load_hmm rnd (corpus_file c1) = load_hmm rnd (corpus_file c2)
  ∧ construct rnd (corpus_file c1) = construct rnd (corpus_file c2).
Proof.
  intros Hp. rewrite !load_hmm_model_of, !construct_model_of.
  by rewrite (model_of_Permutation rnd c1 c2 Hp).
Qed.

Lemma estimation_order_irrelevant_witness :
  [([0; 1; 2; 1], [5; 5; 6; 5]); ([0; 2; 2], [6; 6; 5])]%Z
    ≡ₚ [([0; 2; 2], [6; 6; 5]); ([0; 1; 2; 1], [5; 5; 6; 5])]%Z
  ∧ load_hmm exact
      (corpus_file [([0; 1; 2; 1], [5; 5; 6; 5]); ([0; 2; 2], [6; 6; 5])]%Z)
    = load_hmm exact
      (corpus_file [([0; 2; 2], [6; 6; 5]); ([0; 1; 2; 1], [5; 5; 6; 5])]%Z)
  ∧ construct exact
      (corpus_file [([0; 1; 2; 1], [5; 5; 6; 5]); ([0; 2; 2], [6; 6; 5])]%Z)
    = construct exact
      (corpus_file [([0; 2; 2], [6; 6; 5]); ([0; 1; 2; 1], [5; 5; 6; 5])]%Z).
Proof.
  split; [apply perm_swap|].
  apply (estimation_order_irrelevant exact). apply perm_swap.
Defined.

(** ** States without emissions *)

(** C9, counterexample.  With the run [1 2 3] / [5 6], state [3] is in the
    state list of the model, but it is in no aligned pair: its occurrence
    counter is [0] and its row of [B] is entirely [0]. *)
Lemma state_without_emission :
  ∃ m, load_hmm exact (corpus_file [([1; 2; 3], [5; 6])%Z]) = Ok m
       ∧ hmm_states m !! 2%nat = Some 3%Z
       ∧ dd_get (state_counts (scan_corpus [([1; 2; 3], [5; 6])%Z])) 3 = 0%nat
       ∧ hmm_B m !! 2%nat = Some [0; 0]
       ∧ sumQ [0; 0] ≠ 1.
Proof.
  eexists. split; [apply mismatched_run_model|].
  repeat split. by vm_compute.
Qed.

Lemma n_occ_pos s (r : run) :
  s ∈ r.1 → (length r.1 ≤ length r.2)%nat → (0 < n_occ s r)%nat.
Proof.
  destruct r as [ss os]. simpl. unfold n_occ. simpl. revert os.
  induction ss as [|x ss IH]; intros os Hs Hlen.
  - by apply elem_of_nil in Hs.
  - destruct os as [|o os]; simpl in Hlen; [lia|].
    simpl. rewrite filter_cons. simpl.
    destruct (decide (x = s)) as [->|Hne]; simpl; [lia|].
    apply elem_of_cons in Hs as [->|Hs]; [done|].
    apply IH; [done|lia].
Qed.

(** C9, as the code has it.  When no run has more states than observations
    (in particular when the two sequences of every run have the same
    length), every state of the estimated model occurs in a training state
    sequence, its occurrence counter is positive and its row of [B] sums to
    1 up to the rounding error [u]. *)
Theorem every_state_emits rnd u (corpus : list run) m i s :
  quot_err rnd u →
  Forall (λ r : run, (length r.1 ≤ length r.2)%nat) corpus →
  load_hmm rnd (corpus_file corpus) = Ok m →
  hmm_states m !! i = Some s →
  (∃ r : run, r ∈ corpus ∧ s ∈ r.1)
  ∧ (0 < dd_get (state_counts (scan_corpus corpus)) s)%nat
  ∧ ∃ row, hmm_B m !! i = Some row
           ∧ 1 - u ≤ sumQ row ∧ sumQ row ≤ 1 + u.
Proof.
  intros Herr Hlen Hm Hs.
  rewrite load_hmm_model_of in Hm. injection Hm as <-.
  assert (∃ r : run, r ∈ corpus ∧ s ∈ r.1) as (r & Hr & Hsr).
  { apply elem_of_corpus_states, elem_of_py_sorted.
    by eapply list_elem_of_lookup_2. }
  assert (0 < total_occ corpus s)%nat as Hocc.
  { unfold total_occ.
    eapply Nat.lt_le_trans; [|apply (sum_list_with_in r); done].
    apply n_occ_pos; [done|].
    by apply (proj1 (Forall_forall _ _) Hlen). }
  split; [by exists r|].
  split.
  { destruct (scan_corpus_counts corpus) as (_ & _ & Hsc & _).
    by rewrite Hsc. }
  destruct (model_of_rows rnd u corpus i s Herr Hs)
    as (rowA & rowB & _ & HB & _ & _ & Hsum & _).
  exists rowB. split; [done|]. by apply Hsum.
Qed.

Lemma every_state_emits_witness :
  quot_err exact 0
  ∧ Forall (λ r : run, (length r.1 ≤ length r.2)%nat) [([1; 1; 2], [5; 5; 6])%Z]
  ∧ load_hmm exact (corpus_file [([1; 1; 2], [5; 5; 6])%Z])
    = Ok (model_of exact [([1; 1; 2], [5; 5; 6])%Z])
  ∧ hmm_states (model_of exact [([1; 1; 2], [5; 5; 6])%Z]) !! 1%nat = Some 2%Z
  ∧ (∃ r : run, r ∈ [([1; 1; 2], [5; 5; 6])%Z] ∧ 2%Z ∈ r.1)
  ∧ (0 < dd_get (state_counts (scan_corpus [([1; 1; 2], [5; 5; 6])%Z])) 2)%nat
  ∧ ∃ row, hmm_B (model_of exact [([1; 1; 2], [5; 5; 6])%Z]) !! 1%nat = Some row
           ∧ 1 - 0 ≤ sumQ row ∧ sumQ row ≤ 1 + 0.
Proof.
  assert (Forall (λ r : run, (length r.1 ≤ length r.2)%nat)
                 [([1; 1; 2], [5; 5; 6])%Z]) as Hlen.
  { repeat constructor. }
  assert (hmm_states (model_of exact [([1; 1; 2], [5; 5; 6])%Z]) !! 1%nat
          = Some 2%Z) as Hs.
  { by vm_compute. }
  split; [apply quot_err_exact|].
  split; [exact Hlen|].
  split; [apply load_hmm_model_of|].
  split; [exact Hs|].
  exact (every_state_emits exact 0 [([1; 1; 2], [5; 5; 6])%Z] _ 1 2
           quot_err_exact Hlen (load_hmm_model_of _ _) Hs).
Defined.

(** ** Decoding: unknown observations *)

Lemma mapR_getitem_raise (d : gmap Z nat) l o :
  o ∈ l → d !! o = None →
  ∃ pre o' post,
    l = pre ++ o' :: post
    ∧ (∀ x, x ∈ pre → is_Some (d !! x))
    ∧ d !! o' = None
    ∧ mapR (py_getitem d) l = Raise (KeyError (Some o')).
Proof.
  induction l as [|x l IH]; intros Ho Hd.
  - by apply elem_of_nil in Ho.
  - destruct (d !! x) as [i|] eqn:Hx.
    + apply elem_of_cons in Ho as [->|Ho]; [congruence|].
      destruct (IH Ho Hd) as (pre & o' & post & -> & Hpre & Ho' & Hr).
      exists (x :: pre), o', post. repeat split; [|done|].
      * intros y [->|Hy]%elem_of_cons; [by rewrite Hx|by apply Hpre].
      * simpl. rewrite (proj2 (py_getitem_Ok _ _ _) Hx). simpl. by rewrite Hr.
    + exists [], x, l. repeat split; [|done|].
      * by intros y ?%elem_of_nil.
      * simpl. by rewrite (py_getitem_None _ _ Hx).
Qed.

(** C4.  When the observation sequence contains a label that is not in the
    observation alphabet of the model, [viterbi] raises the [KeyError] of
    the first such label, at the lookup [ob_idx[o]] of line 71: no table is
    built and no path is returned. *)
Theorem unknown_observation_raises rnd m (obs_seq : list Z) o :
  NoDup (hmm_obs m) →
  hmm_ob_idx m = index_map (hmm_obs m) →
  o ∈ obs_seq → o ∉ hmm_obs m →
  ∃ pre o' post,
    obs_seq = pre ++ o' :: post
    ∧ (∀ x, x ∈ pre → x ∈ hmm_obs m)
    ∧ (o' ∉ hmm_obs m)
    ∧ decode rnd m obs_seq = Raise (KeyError (Some o'))
    ∧ viterbi_dp rnd obs_seq (hmm_states m) (hmm_obs m) (hmm_A m) (hmm_B m)
                 (hmm_st_idx m) (hmm_ob_idx m)
      = Raise (KeyError (Some o')).
Proof.
  intros Hnd Hidx Ho Hno.
  assert (hmm_ob_idx m !! o = None) as Hnone.
  { rewrite Hidx. by apply index_map_None. }
  destruct (mapR_getitem_raise _ _ _ Ho Hnone)
    as (pre & o' & post & Heq & Hpre & Ho' & Hr).
  exists pre, o', post. split; [done|]. split; [|split].
  - intros x Hx. destruct (Hpre x Hx) as [i Hi].
    rewrite Hidx in Hi. apply index_map_lookup in Hi; [|done].
    by eapply list_elem_of_lookup_2.
  - rewrite Hidx in Ho'. by apply index_map_None in Ho'.
  - unfold decode, viterbi, viterbi_dp. rewrite Hr. done.
Qed.

(** ** Decoding: shape of the table and of the path *)

Lemma dp_set_Ok (dp : list dict) t s v dp' :
  dp_set dp t s v = Ok dp' ↔
  ∃ d, dp !! t = Some d ∧ dp' = <[t := dict_set s v d]> dp.
Proof.
  unfold dp_set. rewrite bind_Ok. setoid_rewrite py_index_Ok.
  split; intros (d & Hd & Hdp); exists d; (split; [done|]); congruence.
Qed.

Lemma elem_of_dict_set k v (d : dict) kc :
  kc ∈ dict_set k v d → kc = (k, v) ∨ kc ∈ d.
Proof.
  induction d as [|kv d IH]; simpl.
  - intros ->%list_elem_of_singleton. by left.
  - destruct (decide (k = kv.1)).
    + intros [->|H]%elem_of_cons; [by left|right; by right].
    + intros [->|H]%elem_of_cons; [right; by left|].
      destruct (IH H); [by left|right; by right].
Qed.

Lemma dict_get_elem_of k (d : dict) c : dict_get k d = Ok c → (k, c) ∈ d.
Proof.
  induction d as [|[k' c'] d IH]; simpl; [done|].
  destruct (decide (k = k')) as [->|Hne].
  - intros [= ->]. left.
  - intros H. right. by apply IH.
Qed.

Lemma py_max_key_elem_of (d : dict) s : py_max_key d = Ok s → ∃ c, (s, c) ∈ d.
Proof.
  destruct d as [|kv d]; simpl; [done|]. intros [= <-].
  assert (∀ (best : Z * Qc) l,
    (∃ c, (best.1, c) ∈ kv :: d) → l ⊆ d →
    ∃ c, ((foldl (λ (best : Z * Qc) (kv' : Z * (Qc * option Z)),
                    if decide (best.2 < kv'.2.1) then (kv'.1, kv'.2.1)
                    else best) best l).1, c) ∈ kv :: d) as Hgen.
  { intros best l. revert best.
    induction l as [|[k c] l IH]; intros best Hb Hl; simpl; [done|].
    apply IH; [|set_solver].
    destruct (decide (best.2 < c.1)); [|done]. simpl.
    exists c. right. apply Hl. left. }
  apply Hgen; [|done]. exists kv.2. destruct kv. left.
Qed.

Section Shape.

Context (rnd : Qc → Qc) (states : list Z) (A B : matrix)
        (st_idx : gmap Z nat) (obs_ids : list nat).

Lemma dp_set_wf dp t s v dp' :
  dp_wf dp → s ≠ start_state → ((0 < t)%nat → v.2 ≠ Some start_state) →
  dp_set dp t s v = Ok dp' → dp_wf dp' ∧ length dp' = length dp.
Proof.
  intros Hwf Hs Hv (d & Hd & ->)%dp_set_Ok.
  split; [|by rewrite length_insert].
  intros t' d' k c Hd' Hkc.
  destruct (decide (t = t')) as [<-|Hne].
  - rewrite list_lookup_insert_eq in Hd' by (by eapply lookup_lt_Some).
    injection Hd' as <-.
    apply elem_of_dict_set in Hkc as [[= -> ->]|Hkc]; [done|].
    by apply (Hwf t d).
  - rewrite list_lookup_insert_ne in Hd' by done. by apply (Hwf t' d').
Qed.

Lemma init_loop_wf dp dp' :
  dp_wf dp → init_loop rnd states A B st_idx obs_ids dp = Ok dp' →
  dp_wf dp' ∧ length dp' = length dp.
Proof.
  intros Hwf. unfold init_loop.
  apply (foldM_inv (λ x, dp_wf x ∧ length x = length dp)); [done|].
  intros a s a' _ [Ha Hlen] Hbody.
  destruct (decide (s ≠ start_state)) as [Hs|Hs].
  - apply bind_Ok in Hbody as (prev_i & _ & Hbody).
    apply bind_Ok in Hbody as (curr_i & _ & Hbody).
    apply bind_Ok in Hbody as (a0 & _ & Hbody).
    apply bind_Ok in Hbody as (o & _ & Hbody).
    apply bind_Ok in Hbody as (b & _ & Hbody).
    apply dp_set_wf in Hbody as [? ?]; [split; [done|congruence]|done..|].
    intros; lia.
  - injection Hbody as <-. done.
Qed.

Lemma inner_loop_pred dp t curr_i best :
  inner_loop rnd states A B st_idx obs_ids dp t curr_i = Ok best →
  best.2 ≠ Some start_state.
Proof.
  unfold inner_loop.
  apply (foldM_inv (λ b : Qc * option Z, b.2 ≠ Some start_state)); [done|].
  intros a s a' _ Ha Hbody.
  destruct (decide (s = start_state)) as [Hs|Hs].
  - by injection Hbody as <-.
  - apply bind_Ok in Hbody as (prob & _ & Hbody).
    destruct (decide (a.1 < prob)); injection Hbody as <-; [|done].
    simpl. congruence.
Qed.

Lemma step_loop_wf dp t dp' :
  dp_wf dp → step_loop rnd states A B st_idx obs_ids dp t = Ok dp' →
  dp_wf dp' ∧ length dp' = length dp.
Proof.
  intros Hwf. unfold step_loop.
  apply (foldM_inv (λ x, dp_wf x ∧ length x = length dp)); [done|].
  intros a s a' _ [Ha Hlen] Hbody.
  destruct (decide (s = start_state)) as [Hs|Hs].
  - injection Hbody as <-. done.
  - apply bind_Ok in Hbody as (curr_i & _ & Hbody).
    apply bind_Ok in Hbody as (best & Hbest & Hbody).
    apply dp_set_wf in Hbody as [? ?]; [split; [done|congruence]|done..|].
    intros _. by eapply inner_loop_pred.
Qed.

Lemma time_loop_wf ts : ∀ dp dp',
  dp_wf dp →
  foldM (step_loop rnd states A B st_idx obs_ids) dp ts = Ok dp' →
  dp_wf dp' ∧ length dp' = length dp.
Proof.
  intros dp dp' Hwf.
  apply (foldM_inv (λ x, dp_wf x ∧ length x = length dp)); [done|].
  intros a t a' _ [Ha Hlen] Hbody.
  apply step_loop_wf in Hbody as [? ?]; [|done]. split; [done|congruence].
Qed.

End Shape.

Lemma viterbi_dp_wf rnd obs_seq states obs A B st_idx ob_idx dp :
  viterbi_dp rnd obs_seq states obs A B st_idx ob_idx = Ok dp →
  dp_wf dp ∧ length dp = length obs_seq.
Proof.
  unfold viterbi_dp.
  intros (obs_ids & _ & (dp0 & H0 & Hdp)%bind_Ok)%bind_Ok.
  apply init_loop_wf in H0 as [Hwf0 Hlen0].
  2:{ intros t d k c Hd. apply lookup_replicate in Hd as [-> _].
      by intros ?%elem_of_nil. }
  apply time_loop_wf in Hdp as [Hwf Hlen]; [|done].
  split; [done|]. by rewrite Hlen, Hlen0, length_replicate.
Qed.

(** The backtracking loop appends one state per time step. *)
Lemma backtrack_loop_shape (dp : list dict) ts : ∀ path path',
  dp_wf dp → Forall (λ t, 0 < t)%nat ts → Some start_state ∉ path →
  foldM (λ path t,
           d ← py_index dp t;
           prev ← py_last path;
           e ← dict_get_opt prev d;
           Ok (path ++ [e.2])) path ts = Ok path' →
  length path' = (length path + length ts)%nat ∧ Some start_state ∉ path'.
Proof.
  induction ts as [|t ts IH]; intros path path' Hwf Hts Hpath; simpl.
  - intros [= <-]. split; [lia|done].
  - apply Forall_cons in Hts as [Ht Hts].
    intros (path1 & Hbody & Hrest)%bind_Ok.
    apply bind_Ok in Hbody as (d & Hd%py_index_Ok & Hbody).
    apply bind_Ok in Hbody as (prev & _ & Hbody).
    apply bind_Ok in Hbody as (e & He & [= <-]).
    apply IH in Hrest as [Hlen Hnot]; [|done..|].
    + split; [|done]. rewrite Hlen, length_app. simpl. lia.
    + intros [H|H%list_elem_of_singleton]%elem_of_app; [done|].
      destruct prev as [k|]; [|done]. simpl in He.
      apply dict_get_elem_of in He.
      destruct (Hwf t d k e Hd He) as [_ Hne]. by apply Hne.
Qed.

Lemma viterbi_shape rnd obs_seq states obs A B st_idx ob_idx path :
  viterbi rnd obs_seq states obs A B st_idx ob_idx = Ok path →
  length path = length obs_seq ∧ Some start_state ∉ path.
Proof.
  unfold viterbi. intros (dp & Hdp & Hbt)%bind_Ok.
  apply viterbi_dp_wf in Hdp as [Hwf Hlen].
  unfold backtrack in Hbt.
  apply bind_Ok in Hbt as (d & Hd & Hbt).
  apply bind_Ok in Hbt as (final & Hfinal & Hbt).
  apply bind_Ok in Hbt as (p & Hloop & [= <-]).
  unfold py_last in Hd. destruct (last dp) as [d'|] eqn:Hlast; [|done].
  injection Hd as ->.
  assert (0 < length obs_seq)%nat as HT.
  { rewrite <- Hlen. destruct dp; [done|simpl; lia]. }
  apply backtrack_loop_shape in Hloop as [Hl Hn]; [|done| |].
  - rewrite length_reverse, Hl, length_reverse, length_seq. simpl.
    split; [lia|]. by rewrite elem_of_reverse.
  - apply Forall_forall. intros t Ht%elem_of_reverse%elem_of_seq. lia.
  - intros <-%list_elem_of_singleton%(inj Some).
    apply py_max_key_elem_of in Hfinal as [c Hc].
    rewrite last_lookup in Hlast.
    by destruct (Hwf _ _ _ _ Hlast Hc).
Qed.

(** C5.  The sentinel label 0 occurs at no position of a path returned by
    [viterbi]. *)
Theorem sentinel_not_in_path rnd obs_seq states obs A B st_idx ob_idx path :
  viterbi rnd obs_seq states obs A B st_idx ob_idx = Ok path →
  Forall (λ x, x ≠ Some 0%Z) path.
Proof.
  intros Hv. apply viterbi_shape in Hv as [_ Hn].
  apply Forall_forall. intros x Hx ->. by apply Hn.
Qed.

(** C6.  A path returned by [viterbi] has the length of the observation
    sequence. *)
Theorem path_length rnd obs_seq states obs A B st_idx ob_idx path :
  viterbi rnd obs_seq states obs A B st_idx ob_idx = Ok path →
  length path = length obs_seq.
Proof. intros Hv. by apply viterbi_shape in Hv as [? _]. Qed.

(** ** Decoding: the two maximisations *)






(** ** The test loop and the declared lengths *)

Lemma test_loop_job rnd m (tests : list (Z * list Z)) : ∀ pre acc,
  test_loop rnd m (length tests)
            (pre ++ flat_map (λ tc : Z * list Z, [[Some tc.1]; ints tc.2]) tests)
            (length pre) acc
  = foldM (λ acc (tc : Z * list Z), p ← decode rnd m tc.2; Ok (acc ++ [p]))
          acc tests.
Proof.
  induction tests as [|[L os] tests IH]; intros pre acc; simpl; [done|].
  unfold py_index.
  rewrite (list_lookup_middle pre _ _ (length pre)) by done. simpl.
  rewrite (lookup_app_r pre _ (length pre + 1)) by lia.
  replace (length pre + 1 - length pre)%nat with 1%nat by lia. simpl.
  rewrite py_ints_ints. simpl.
  destruct (decode rnd m os) as [p|e]; simpl; [|done].
  specialize (IH (pre ++ [[Some L]; ints os]) (acc ++ [p])).
  rewrite <- app_assoc, length_app in IH. simpl in IH. apply IH.
Qed.

Lemma main_job rnd dataset path (tests : list (Z * list Z)) :
  main rnd dataset (job_file path tests)
  = m ← load_hmm rnd dataset;
    foldM (λ acc (tc : Z * list Z), p ← decode rnd m tc.2; Ok (acc ++ [p]))
          [] tests.
Proof.
  unfold main, job_file. simpl.
  destruct (load_hmm rnd dataset) as [m|e]; simpl; [|done].
  rewrite Nat2Z.id.
  apply (test_loop_job rnd m tests [path; [Some (Z.of_nat (length tests))]]).
Qed.




(** ** The forward pass fills the table of the specification *)

Lemma foldM_filter {X S : Type} (P : X → Prop) `{!∀ x, Decision (P x)}
    (body : S → X → result S) l :
  ∀ acc, foldM (λ a x, if decide (P x) then body a x else Ok a) acc l
         = foldM body acc (filter P l).
Proof.
  induction l as [|x l IH]; intros acc; simpl; [done|].
  rewrite filter_cons. destruct (decide (P x)) as [HP|HP]; simpl.
  - destruct (body acc x); simpl; [apply IH|done].
  - apply IH.
Qed.

Lemma foldM_ext {X S : Type} (body body' : S → X → result S) l :
  ∀ acc, (∀ a x, x ∈ l → body a x = body' a x) →
         foldM body acc l = foldM body' acc l.
Proof.
  induction l as [|x l IH]; intros acc Hb; simpl; [done|].
  rewrite Hb by left. destruct (body' acc x); simpl; [|done].
  apply IH. intros a y Hy. apply Hb. by right.
Qed.

Lemma position_lookup l x : x ∈ l → l !! position l x = Some x.
Proof.
  intros Hx. unfold position.
  destruct (list_find_elem_of (λ y, y = x) l x Hx eq_refl) as [[i y] Hf].
  rewrite Hf. simpl. by apply list_find_Some in Hf as (Hi & -> & _).
Qed.

Lemma index_map_position l x :
  NoDup l → x ∈ l → index_map l !! x = Some (position l x).
Proof. intros Hnd Hx. apply index_map_lookup; [done|]. by apply position_lookup. Qed.

Lemma mat_get_entry (M : matrix) i j n :
  (i < length M)%nat → Forall (λ row, length row = n) M → (j < n)%nat →
  mat_get M i j = Ok (entry M i j).
Proof.
  intros Hi Hall Hj. unfold mat_get, entry, py_index.
  destruct (lookup_lt_is_Some_2 M i Hi) as [row Hrow]. rewrite Hrow. simpl.
  assert (length row = n) as Hlen by by eapply (proj1 (Forall_lookup _ _) Hall).
  destruct (lookup_lt_is_Some_2 row j) as [x Hx]; [lia|]. by rewrite Hx.
Qed.

Lemma entry_nonneg (M : matrix) i j :
  Forall (Forall (λ x, 0 ≤ x)) M → 0 ≤ entry M i j.
Proof.
  intros Hall. unfold entry.
  destruct (M !! i) as [row|] eqn:Hrow; simpl; [|done].
  destruct (row !! j) as [x|] eqn:Hx; simpl; [|done].
  eapply (proj1 (Forall_lookup _ _)); [|exact Hx].
  by eapply (proj1 (Forall_lookup _ _) Hall).
Qed.

Lemma dict_set_fresh (g : Z → Qc * option Z) l s v :
  s ∉ l → dict_set s v ((λ k, (k, g k)) <$> l) = ((λ k, (k, g k)) <$> l) ++ [(s, v)].
Proof.
  induction l as [|k l IH]; intros Hs; [done|].
  apply not_elem_of_cons in Hs as [Hne Hs].
  rewrite fmap_cons. simpl. rewrite decide_False by done. by rewrite IH.
Qed.

Lemma dict_get_fmap (g : Z → Qc * option Z) l s :
  s ∈ l → dict_get s ((λ k, (k, g k)) <$> l) = Ok (g s).
Proof.
  induction l as [|k l IH]; intros Hs; [by apply elem_of_nil in Hs|].
  rewrite fmap_cons. simpl. destruct (decide (s = k)) as [->|Hne]; [done|].
  apply IH. by apply elem_of_cons in Hs as [?|?].
Qed.

(** A loop that writes the cell [g s] of row [t] for each [s] of a
    duplicate-free list builds the row in the order of the list.  The body
    may read the other rows. *)
Lemma row_loop (body : list dict → Z → result (list dict))
    (g : Z → Qc * option Z) t (dp0 : list dict) :
  ∀ todo done dp,
    NoDup (done ++ todo) →
    dp !! t = Some ((λ s, (s, g s)) <$> done) →
    (∀ t', t' ≠ t → dp !! t' = dp0 !! t') →
    (∀ s dp', s ∈ todo → (∀ t', t' ≠ t → dp' !! t' = dp0 !! t') →
              body dp' s = dp_set dp' t s (g s)) →
    foldM body dp todo
    = Ok (<[t := (λ s, (s, g s)) <$> (done ++ todo)]> dp).
Proof.
  induction todo as [|s todo IH]; intros done dp Hnd Hrow Hother Hbody; simpl.
  - rewrite app_nil_r. by rewrite list_insert_id.
  - rewrite Hbody; [|by left|done].
    unfold dp_set, py_index. rewrite Hrow. simpl.
    rewrite dict_set_fresh.
    2:{ apply NoDup_app in Hnd as (_ & Hnd & _). intros Hs.
        apply (Hnd s Hs). left. }
    replace (((λ s0, (s0, g s0)) <$> done) ++ [(s, g s)])
      with ((λ s0, (s0, g s0)) <$> (done ++ [s]))
      by by rewrite fmap_app.
    rewrite (IH (done ++ [s])).
    + rewrite list_insert_insert_eq. by rewrite <- app_assoc.
    + by rewrite <- app_assoc.
    + apply list_lookup_insert_eq. by eapply lookup_lt_Some.
    + intros t' Ht'. rewrite list_lookup_insert_ne by done. by apply Hother.
    + intros s' dp' Hs' Hdp'. apply Hbody; [by right|done].
Qed.

Lemma Qc_max_r x y : x ≤ y → Qc_max x y = y.
Proof. intros. unfold Qc_max. by rewrite decide_True. Qed.

Lemma Qc_max_l x y : y ≤ x → Qc_max x y = x.
Proof.
  intros Hyx. unfold Qc_max. destruct (decide (x ≤ y)); [|done].
  by apply Qcle_antisym.
Qed.

Lemma Qc_max_mono (h : Qc → Qc) x y :
  (∀ a b, a ≤ b → h a ≤ h b) → Qc_max (h x) (h y) = h (Qc_max x y).
Proof.
  intros Hh. unfold Qc_max.
  destruct (decide (x ≤ y)) as [Hxy|Hxy].
  - rewrite decide_True; [done|]. by apply Hh.
  - destruct (decide (h x ≤ h y)) as [Hle|Hle]; [|done].
    apply Qcle_antisym; [|done]. apply Hh.
    apply Qclt_le_weak. by apply Qcnot_le_lt.
Qed.

(** A monotone map commutes with the maximum over a non-empty list. *)
Lemma max_over_mono (h : Qc → Qc) (G : Z → Qc) l :
  (∀ a b, a ≤ b → h a ≤ h b) → l ≠ [] →
  max_over l (λ p, h (G p)) = h (max_over l G).
Proof.
  intros Hh Hl. destruct l as [|p l]; [done|]. simpl.
  generalize (G p). induction l as [|q l IH]; intros x; simpl; [done|].
  rewrite Qc_max_mono by done. apply IH. done.
Qed.

Lemma max_over_nonneg (G : Z → Qc) l : (∀ p, 0 ≤ G p) → 0 ≤ max_over l G.
Proof.
  intros HG. destruct l as [|p l]; [done|]. simpl.
  assert (0 ≤ G p) as Hx by done. revert Hx.
  generalize (G p). induction l as [|q l IH]; intros x Hx; simpl; [done|].
  apply IH. unfold Qc_max. destruct (decide (x ≤ G q)); [apply HG|done].
Qed.

(** The value at the first greatest element is the maximum. *)
Lemma argmax_first_value (F : Z → Qc) l r :
  argmax_first l F = Some r → F r = max_over l F ∧ r ∈ l.
Proof.
  destruct l as [|p l]; [done|]. simpl. intros [= <-].
  assert (∀ p0, let r := foldl (λ best q, if decide (F best < F q) then q
                                          else best) p0 l in
                F r = foldl (λ acc q, Qc_max acc (F q)) (F p0) l
                ∧ (r = p0 ∨ r ∈ l)) as Hgen.
  { induction l as [|q l IH]; intros p0; simpl; [by split; [|left]|].
    destruct (decide (F p0 < F q)) as [Hlt|Hge].
    - destruct (IH q) as [IH1 IH2]. split.
      + rewrite IH1. by rewrite Qc_max_r by by apply Qclt_le_weak.
      + right. destruct IH2 as [->|?]; [left|by right].
    - destruct (IH p0) as [IH1 IH2]. split.
      + rewrite IH1. by rewrite Qc_max_l by by apply Qcnot_lt_le.
      + destruct IH2 as [->|?]; [by left|right; by right]. }
  destruct (Hgen p) as [H1 H2]. split; [done|].
  destruct H2 as [->|?]; [left|by right].
Qed.

(** The loop of lines 88-97 over values that all exceed [-1.0]. *)
Lemma inner_fold_argmax (F : Z → Qc) l :
  (∀ p, - 1 < F p) → l ≠ [] →
  foldl (λ (best : Qc * option Z) p,
           if decide (best.1 < F p) then (F p, Some p) else best)
        (- 1, None) l
  = (max_over l F, Some (default 0%Z (argmax_first l F))).
Proof.
  intros HF Hl. destruct l as [|p l]; [done|].
  destruct (argmax_first_value F (p :: l) _ eq_refl) as [Hval _].
  rewrite <- Hval. simpl. rewrite decide_True by apply HF.
  clear. generalize p. induction l as [|q l IH]; intros p0; simpl; [done|].
  destruct (decide (F p0 < F q)); apply IH.
Qed.

Lemma py_max_key_argmax (f : Z → Qc) (g : Z → option Z) l :
  py_max_key ((λ s, (s, (f s, g s))) <$> l)
  = match argmax_first l f with
    | Some r => Ok r
    | None => Raise ValueError
    end.
Proof.
  destruct l as [|p l]; [done|]. rewrite fmap_cons. simpl. f_equal.
  assert (∀ p0,
    foldl (λ (best : Z * Qc) (kv' : Z * (Qc * option Z)),
             if decide (best.2 < kv'.2.1) then (kv'.1, kv'.2.1) else best)
          (p0, f p0) ((λ s, (s, (f s, g s))) <$> l)
    = (let r := foldl (λ best q, if decide (f best < f q) then q else best)
                      p0 l in (r, f r))) as Hgen.
  { induction l as [|q l IH]; intros p0; [done|].
    rewrite fmap_cons. simpl. destruct (decide (f p0 < f q)); apply IH. }
  by rewrite Hgen.
Qed.

Section Forward.

Context (rnd : Qc → Qc) (m : hmm) (obs_seq : list Z).
Hypothesis Hmono : rnd_mono rnd.
Hypothesis Hzero : rnd_zero rnd.
Hypothesis Hwf : wf_model m.
Hypothesis Hstart : 0%Z ∈ hmm_states m.
Hypothesis Hobs : ∀ o, o ∈ obs_seq → o ∈ hmm_obs m.

Local Abbreviation cand := (candidates m).
Local Abbreviation score := (spec_score rnd m obs_seq).
Local Abbreviation bptr := (spec_backptr rnd m obs_seq).
Local Abbreviation row := (spec_row rnd m obs_seq).
Local Abbreviation obs_ids := (obsIndex m <$> obs_seq).

Lemma rnd_nonneg x : 0 ≤ x → 0 ≤ rnd x.
Proof. intros Hx. rewrite <- Hzero. by apply Hmono. Qed.

Lemma fmul_nonneg x y : 0 ≤ x → 0 ≤ y → 0 ≤ fmul rnd x y.
Proof. intros. apply rnd_nonneg. by apply Qcmult_nonneg_nonneg. Qed.

Lemma spec_A_nonneg p s : 0 ≤ spec_A m p s.
Proof. apply entry_nonneg, Hwf. Qed.

Lemma spec_B_nonneg s o : 0 ≤ spec_B m s o.
Proof. apply entry_nonneg, Hwf. Qed.

Lemma spec_score_nonneg t s : 0 ≤ score t s.
Proof.
  revert s. induction t as [|t IH]; intros s; simpl.
  - apply fmul_nonneg; [apply spec_A_nonneg|apply spec_B_nonneg].
  - apply fmul_nonneg; [|apply spec_B_nonneg].
    apply max_over_nonneg. intros p.
    apply fmul_nonneg; [apply IH|apply spec_A_nonneg].
Qed.

Lemma elem_of_cand s : s ∈ cand ↔ s ≠ 0%Z ∧ s ∈ hmm_states m.
Proof. unfold candidates. by rewrite list_elem_of_filter. Qed.

Lemma cand_NoDup : NoDup cand.
Proof. apply NoDup_filter, Hwf. Qed.

Lemma st_idx_Ok s :
  s ∈ hmm_states m →
  py_getitem (hmm_st_idx m) s = Ok (stateIndex m s)
  ∧ (stateIndex m s < length (hmm_states m))%nat.
Proof.
  intros Hs. split.
  - apply py_getitem_Ok. rewrite (wf_st_idx m Hwf).
    apply index_map_position; [apply Hwf|done].
  - eapply lookup_lt_Some. by apply position_lookup.
Qed.

Lemma ob_idx_Ok o :
  o ∈ hmm_obs m →
  py_getitem (hmm_ob_idx m) o = Ok (obsIndex m o)
  ∧ (obsIndex m o < length (hmm_obs m))%nat.
Proof.
  intros Ho. split.
  - apply py_getitem_Ok. rewrite (wf_ob_idx m Hwf).
    apply index_map_position; [apply Hwf|done].
  - eapply lookup_lt_Some. by apply position_lookup.
Qed.

Lemma mat_get_A p s :
  p ∈ hmm_states m → s ∈ hmm_states m →
  mat_get (hmm_A m) (stateIndex m p) (stateIndex m s) = Ok (spec_A m p s).
Proof.
  intros Hp Hs. unfold spec_A.
  apply mat_get_entry with (n := length (hmm_states m)).
  - rewrite (wf_A_rows m Hwf). by apply st_idx_Ok.
  - apply Hwf.
  - by apply st_idx_Ok.
Qed.

Lemma mat_get_B s o :
  s ∈ hmm_states m → o ∈ hmm_obs m →
  mat_get (hmm_B m) (stateIndex m s) (obsIndex m o) = Ok (spec_B m s o).
Proof.
  intros Hs Ho. unfold spec_B.
  apply mat_get_entry with (n := length (hmm_obs m)).
  - rewrite (wf_B_rows m Hwf). by apply st_idx_Ok.
  - apply Hwf.
  - by apply ob_idx_Ok.
Qed.

Lemma obs_ids_Ok : mapR (py_getitem (hmm_ob_idx m)) obs_seq = Ok obs_ids.
Proof. apply mapR_Ok. intros o Ho. by apply ob_idx_Ok, Hobs. Qed.

Lemma obs_at_elem t : (t < length obs_seq)%nat → obs_at obs_seq t ∈ hmm_obs m.
Proof.
  intros Ht. destruct (lookup_lt_is_Some_2 obs_seq t Ht) as [o Ho].
  unfold obs_at. rewrite Ho. simpl. apply Hobs.
  by eapply list_elem_of_lookup_2.
Qed.

Lemma obs_ids_index t :
  (t < length obs_seq)%nat →
  py_index obs_ids t = Ok (obsIndex m (obs_at obs_seq t)).
Proof.
  intros Ht. destruct (lookup_lt_is_Some_2 obs_seq t Ht) as [o Ho].
  apply py_index_Ok. rewrite list_lookup_fmap, Ho. simpl.
  unfold obs_at. by rewrite Ho.
Qed.

Lemma init_loop_spec (dp : list dict) :
  (0 < length obs_seq)%nat →
  dp !! 0%nat = Some [] →
  init_loop rnd (hmm_states m) (hmm_A m) (hmm_B m) (hmm_st_idx m) obs_ids dp
  = Ok (<[0%nat := row 0%nat]> dp).
Proof.
  intros HT Hdp0. unfold init_loop.
  rewrite (foldM_filter (λ s, s ≠ start_state)).
  apply (row_loop _ (λ s, (score 0%nat s, Some (bptr 0%nat s))) 0 dp
                  cand [] dp).
  - apply cand_NoDup.
  - done.
  - done.
  - intros s dp' [Hs0 Hs]%elem_of_cand _.
    rewrite (proj1 (st_idx_Ok start_state Hstart)). simpl.
    rewrite (proj1 (st_idx_Ok s Hs)). simpl.
    rewrite (mat_get_A start_state s) by done. simpl.
    rewrite obs_ids_index by done. simpl.
    rewrite mat_get_B by (done || by apply obs_at_elem). done.
Qed.

Lemma step_prob_spec (dp : list dict) t s p :
  (S t < length obs_seq)%nat →
  dp !! t = Some (row t) →
  s ∈ hmm_states m → p ∈ cand →
  step_prob rnd (hmm_A m) (hmm_B m) (hmm_st_idx m) obs_ids dp (S t)
            (stateIndex m s) p
  = Ok (step_value rnd m obs_seq t s p).
Proof.
  intros Ht Hrow Hs Hp. unfold step_prob.
  pose proof Hp as [_ Hp']%elem_of_cand.
  rewrite (proj1 (st_idx_Ok p Hp')). simpl.
  rewrite Nat.sub_0_r.
  rewrite (proj2 (py_index_Ok dp t _) Hrow). simpl.
  unfold spec_row.
  rewrite (dict_get_fmap (λ k, (score t k, Some (bptr t k)))) by done. simpl.
  rewrite mat_get_A by done. simpl.
  rewrite obs_ids_index by done. simpl.
  rewrite mat_get_B by (done || by apply obs_at_elem). done.
Qed.

Lemma step_value_nonneg t s p : 0 ≤ step_value rnd m obs_seq t s p.
Proof.
  apply fmul_nonneg; [|apply spec_B_nonneg].
  apply fmul_nonneg; [apply spec_score_nonneg|apply spec_A_nonneg].
Qed.

Lemma inner_loop_spec (dp : list dict) t s :
  (S t < length obs_seq)%nat →
  dp !! t = Some (row t) →
  s ∈ cand →
  inner_loop rnd (hmm_states m) (hmm_A m) (hmm_B m) (hmm_st_idx m) obs_ids
             dp (S t) (stateIndex m s)
  = Ok (score (S t) s, Some (bptr (S t) s)).
Proof.
  intros Ht Hrow Hs. unfold inner_loop.
  pose proof Hs as [_ Hs']%elem_of_cand.
  rewrite (foldM_skip (λ p, p = start_state)).
  rewrite (foldM_pure _ (λ (best : Qc * option Z) p,
             if decide (best.1 < step_value rnd m obs_seq t s p)
             then (step_value rnd m obs_seq t s p, Some p) else best)).
  2:{ intros best p Hp. rewrite step_prob_spec by done. simpl.
      by destruct (decide (best.1 < step_value rnd m obs_seq t s p)). }
  change (filter _ (hmm_states m)) with cand. rewrite inner_fold_argmax.
  - f_equal. f_equal. simpl. unfold step_value.
    rewrite (max_over_mono
               (λ x, fmul rnd x (spec_B m s (obs_at obs_seq (S t))))
               (λ p, fmul rnd (score t p) (spec_A m p s))).
    + done.
    + intros a b Hab. apply Hmono.
      apply Qcmult_le_mono_nonneg_r; [apply spec_B_nonneg|done].
    + intros Hnil. rewrite Hnil in Hs. by apply elem_of_nil in Hs.
  - intros p. eapply Qclt_le_trans; [|apply step_value_nonneg]. done.
  - intros Hnil. rewrite Hnil in Hs. by apply elem_of_nil in Hs.
Qed.

Lemma step_loop_spec (dp : list dict) t :
  (S t < length obs_seq)%nat →
  dp !! t = Some (row t) →
  dp !! S t = Some [] →
  step_loop rnd (hmm_states m) (hmm_A m) (hmm_B m) (hmm_st_idx m) obs_ids
            dp (S t)
  = Ok (<[S t := row (S t)]> dp).
Proof.
  intros Ht Hrow Hnext. unfold step_loop.
  rewrite (foldM_skip (λ s, s = start_state)).
  apply (row_loop _ (λ s, (score (S t) s, Some (bptr (S t) s))) (S t) dp
                  cand [] dp).
  - apply cand_NoDup.
  - done.
  - done.
  - intros s dp' Hs Hdp'.
    pose proof Hs as [_ Hs']%elem_of_cand.
    rewrite (proj1 (st_idx_Ok s Hs')). simpl.
    rewrite inner_loop_spec; [done|done| |done].
    rewrite Hdp' by lia. done.
Qed.

Lemma table_lookup_filled k t : (t ≤ k)%nat → table rnd m obs_seq k !! t = Some (row t).
Proof.
  intros Htk. unfold table.
  rewrite lookup_app_l by (rewrite length_fmap, length_seq; lia).
  rewrite list_lookup_fmap, lookup_seq_lt by lia. done.
Qed.

Lemma table_lookup_empty k t :
  (k < t < length obs_seq)%nat → table rnd m obs_seq k !! t = Some [].
Proof.
  intros Htk. unfold table.
  rewrite lookup_app_r by (rewrite length_fmap, length_seq; lia).
  rewrite length_fmap, length_seq. apply lookup_replicate_2. lia.
Qed.

Lemma table_step k :
  (S k < length obs_seq)%nat →
  <[S k := row (S k)]> (table rnd m obs_seq k) = table rnd m obs_seq (S k).
Proof.
  intros Hk. unfold table.
  rewrite insert_app_r_alt by (rewrite length_fmap, length_seq; lia).
  rewrite length_fmap, length_seq, Nat.sub_diag.
  destruct (length obs_seq - S k)%nat as [|n] eqn:E; [lia|].
  simpl replicate. cbn [insert list_insert].
  rewrite (seq_S (S k)), fmap_app, <- app_assoc. simpl.
  by replace (length obs_seq - S (S k))%nat with n by lia.
Qed.

Lemma time_loop_spec k :
  (k < length obs_seq)%nat →
  foldM (step_loop rnd (hmm_states m) (hmm_A m) (hmm_B m) (hmm_st_idx m)
                   obs_ids)
        (table rnd m obs_seq 0) (seq 1 k)
  = Ok (table rnd m obs_seq k).
Proof.
  induction k as [|k IH]; intros Hk; [done|].
  rewrite seq_S, foldM_app, IH by lia.
  cbn [mbind result_bind foldM Nat.add].
  rewrite step_loop_spec; [|done|by apply table_lookup_filled
                           |apply table_lookup_empty; lia].
  cbn [mbind result_bind]. by rewrite table_step.
Qed.

(** The forward pass builds the rows of the specification. *)
Lemma viterbi_dp_spec :
  obs_seq ≠ [] →
  viterbi_dp rnd obs_seq (hmm_states m) (hmm_obs m) (hmm_A m) (hmm_B m)
             (hmm_st_idx m) (hmm_ob_idx m)
  = Ok (row <$> seq 0 (length obs_seq)).
Proof.
  intros Hne.
  assert (0 < length obs_seq)%nat as HT by (destruct obs_seq; [done|simpl; lia]).
  unfold viterbi_dp. rewrite obs_ids_Ok. simpl.
  rewrite init_loop_spec; [|done|by apply lookup_replicate_2]. simpl.
  replace (<[0%nat := row 0%nat]> (replicate (length obs_seq) []))
    with (table rnd m obs_seq 0).
  2:{ unfold table. destruct (length obs_seq) as [|n]; [lia|]. simpl.
      by rewrite Nat.sub_0_r. }
  rewrite time_loop_spec by lia. f_equal. unfold table.
  replace (S (length obs_seq - 1)) with (length obs_seq) by lia.
  rewrite Nat.sub_diag. simpl. by rewrite app_nil_r.
Qed.

(** Following the stored predecessors from [s] at time [t]. *)
Lemma backtrack_loop_spec (dp : list dict) t : ∀ (pre : list (option Z)) s,
  (∀ t', (t' ≤ t)%nat → dp !! t' = Some (row t')) →
  s ∈ cand →
  foldM (λ path t,
           d ← py_index dp t;
           prev ← py_last path;
           e ← dict_get_opt prev d;
           Ok (path ++ [e.2]))
        (pre ++ [Some s]) (reverse (seq 1 t))
  = Ok (pre ++ (Some <$> spec_backtrace rnd m obs_seq t s)).
Proof.
  induction t as [|t IH]; intros pre s Hdp Hs; [done|].
  rewrite seq_S, reverse_app.
  cbn [reverse rev_append app foldM Nat.add].
  rewrite (proj2 (py_index_Ok dp (S t) _) (Hdp (S t) (Nat.le_refl _))).
  cbn [mbind result_bind].
  rewrite py_last_snoc.
  cbn [mbind result_bind dict_get_opt].
  unfold spec_row.
  rewrite (dict_get_fmap (λ k, (score (S t) k, Some (bptr (S t) k)))) by done.
  cbn [mbind result_bind snd].
  assert (bptr (S t) s ∈ cand) as Hb.
  { simpl. destruct (argmax_first cand _) as [r|] eqn:E.
    - by apply argmax_first_value in E as [_ ?].
    - destruct cand; [by apply elem_of_nil in Hs|done]. }
  rewrite (IH (pre ++ [Some s]) (bptr (S t) s)); [|intros; apply Hdp; lia|done].
  by rewrite <- app_assoc.
Qed.

Lemma py_max_key_row t :
  py_max_key (row t)
  = match argmax_first cand (score t) with
    | Some r => Ok r
    | None => Raise ValueError
    end.
Proof. apply (py_max_key_argmax (score t) (λ s, Some (bptr t s))). Qed.

Lemma decode_spec :
  obs_seq ≠ [] →
  decode rnd m obs_seq
  = match spec_decode rnd m obs_seq with
    | Some path => Ok (Some <$> path)
    | None => Raise ValueError
    end.
Proof.
  intros Hne.
  assert (0 < length obs_seq)%nat as HT by (destruct obs_seq; [done|simpl; lia]).
  unfold decode, viterbi. rewrite viterbi_dp_spec by done. simpl.
  unfold backtrack, py_last.
  rewrite last_lookup, length_fmap, length_seq.
  rewrite list_lookup_fmap, lookup_seq_lt by lia. simpl.
  replace (Init.Nat.pred (length obs_seq)) with (length obs_seq - 1)%nat by lia.
  rewrite py_max_key_row.
  unfold spec_decode.
  destruct (argmax_first cand (score (length obs_seq - 1)%nat)) as [final|] eqn:E;
    simpl; [|done].
  apply argmax_first_value in E as [_ Hfinal].
  rewrite (backtrack_loop_spec _ (length obs_seq - 1) [] final); [|
    |done].
  - simpl. by rewrite fmap_reverse.
  - intros t' Ht'. rewrite list_lookup_fmap, lookup_seq_lt by lia. done.
Qed.

End Forward.

(** ** Estimated models are well formed *)

Lemma quot_nonneg (c t : nat) :
  (0 < t)%nat → 0 ≤ Qc_of_Z (Z.of_nat c) / Qc_of_Z (Z.of_nat t).
Proof.
  intros Ht. unfold Qcdiv. apply Qcmult_nonneg_nonneg.
  - rewrite <- Z2Qc_inj_0. apply (proj1 (Z2Qc_inj_le _ _)). lia.
  - apply Qclt_le_weak, Qcinv_pos.
    rewrite <- Z2Qc_inj_0. apply (proj1 (Z2Qc_inj_lt _ _)). lia.
Qed.

Lemma ratio_nonneg rnd c t : rnd_mono rnd → rnd_zero rnd → 0 ≤ ratio rnd c t.
Proof.
  intros Hmono Hzero. unfold ratio.
  destruct (decide (0 < t)%nat); [|done].
  rewrite <- Hzero. apply Hmono. by apply quot_nonneg.
Qed.

Lemma model_of_wf rnd corpus :
  rnd_mono rnd → rnd_zero rnd → wf_model (model_of rnd corpus).
Proof.
  intros Hmono Hzero.
  destruct (model_of_dims rnd corpus) as (HA & HB & HAc & HBc).
  split; try done; simpl.
  - apply py_sorted_NoDup.
  - apply py_sorted_NoDup.
  - unfold matrix_of. apply Forall_fmap, Forall_forall. intros r _. simpl.
    apply Forall_fmap, Forall_forall. intros c _. simpl.
    by apply ratio_nonneg.
  - unfold matrix_of. apply Forall_fmap, Forall_forall. intros r _. simpl.
    apply Forall_fmap, Forall_forall. intros c _. simpl.
    by apply ratio_nonneg.
Qed.

Lemma rnd_mono_exact : rnd_mono exact.
Proof. by intros x y. Qed.

Lemma rnd_zero_exact : rnd_zero exact.
Proof. done. Qed.

Lemma example_model_wf : wf_model example_model.
Proof. apply model_of_wf; [apply rnd_mono_exact|apply rnd_zero_exact]. Qed.

(** ** Decoding: the claims *)

(** The stored predecessor achieves the score of the cell. *)
Lemma spec_backptr_achieves rnd m obs_seq t s :
  rnd_mono rnd → rnd_zero rnd → wf_model m →
  s ∈ candidates m →
  spec_backptr rnd m obs_seq (S t) s ∈ candidates m
  ∧ step_value rnd m obs_seq t s (spec_backptr rnd m obs_seq (S t) s)
    = spec_score rnd m obs_seq (S t) s.
Proof.
  intros Hmono Hzero Hwf Hs.
  assert (candidates m ≠ []) as Hne.
  { intros Hnil. rewrite Hnil in Hs. by apply elem_of_nil in Hs. }
  simpl.
  destruct (argmax_first (candidates m) _) as [r|] eqn:E.
  2:{ destruct (candidates m); done. }
  apply argmax_first_value in E as [Hval Hr]. simpl. split; [done|].
  unfold step_value. rewrite Hval.
  apply (max_over_mono
           (λ x, fmul rnd x (spec_B m s (obs_at obs_seq (S t))))
           (λ p, fmul rnd (spec_score rnd m obs_seq t p) (spec_A m p s)));
    [|done].
  intros a b Hab. apply Hmono.
  apply Qcmult_le_mono_nonneg_r; [by apply spec_B_nonneg|done].
Qed.

(** In exact arithmetic and for a positive emission probability, the
    stored predecessor is also the first candidate with the greatest
    [score[t-1][p] * A[p][s]]: multiplying by a positive number keeps every
    strict comparison. *)
Lemma argmax_first_ext (f g : Z → Qc) l :
  (∀ x y, f x < f y ↔ g x < g y) → argmax_first l f = argmax_first l g.
Proof.
  intros Hfg. destruct l as [|p l]; [done|]. simpl. f_equal.
  generalize p. induction l as [|q l IH]; intros p0; simpl; [done|].
  destruct (decide (f p0 < f q)) as [Hlt|Hge].
  - rewrite decide_True by by apply Hfg. apply IH.
  - rewrite decide_False by (by rewrite <- Hfg). apply IH.
Qed.

Lemma spec_backptr_positive_emission m obs_seq t s :
  0 < spec_B m s (obs_at obs_seq (S t)) →
  spec_backptr exact m obs_seq (S t) s
  = default 0%Z
      (argmax_first (candidates m)
         (λ p, spec_score exact m obs_seq t p * spec_A m p s)).
Proof.
  intros Hb. simpl. f_equal. apply argmax_first_ext. intros x y.
  unfold fmul, exact. symmetry. by apply Qcmult_lt_mono_pos_r.
Qed.


Lemma example_obs_known :
  ∀ o, o ∈ [5; 6; 6]%Z → o ∈ hmm_obs example_model.
Proof.
  apply Forall_forall. apply (bool_decide_unpack _). by vm_compute.
Qed.

Lemma example_has_start : 0%Z ∈ hmm_states example_model.
Proof. apply (bool_decide_unpack _). by vm_compute. Qed.


(** The example of the specification for decoding: with the scores of step
    0 equal to [0.54] and [0.08], the transition probabilities [0.7] and
    [0.4] into state 1 and the emission probability [0.1], the loop of lines
    88-97 returns [max(0.54*0.7, 0.08*0.4)*0.1] with predecessor 1. *)
Example decoding_example :
  inner_loop exact [0; 1; 2]%Z
    [[0; Q2Qc (6 # 10); Q2Qc (4 # 10)];
     [0; Q2Qc (7 # 10); Q2Qc (3 # 10)];
     [0; Q2Qc (4 # 10); Q2Qc (6 # 10)]]
    [[0; 0]; [Q2Qc (9 # 10); Q2Qc (1 # 10)]; [Q2Qc (2 # 10); Q2Qc (8 # 10)]]
    (index_map [0; 1; 2]%Z) [0; 1]%nat
    [[(1, (Q2Qc (54 # 100), Some 0)); (2, (Q2Qc (8 # 100), Some 0))]%Z; []]
    1 1
  = Ok (Q2Qc (378 # 10000), Some 1%Z).
Proof. apply (bool_decide_unpack _). by vm_compute. Qed.

(** When the emission probability of the current observation is [0] every
    product of line 94 is [0], so the first candidate is stored as the
    predecessor whatever the scores of the previous step are.  In the model
    of [start_only_corpus] the observation [7] is emitted by state [0] only:
    for the sequence [5 7] the returned path is [1 1], although
    [score[0][p] * A[p][1]] is greatest at [p = 2]. *)
Example zero_emission_backpointer :
  decode exact (model_of exact start_only_corpus) [5; 7]%Z
  = Ok [Some 1; Some 1]%Z
  ∧ spec_B (model_of exact start_only_corpus) 1 7 = 0
  ∧ argmax_first (candidates (model_of exact start_only_corpus))
      (λ p, fmul exact
              (spec_score exact (model_of exact start_only_corpus) [5; 7]%Z 0 p)
              (spec_A (model_of exact start_only_corpus) p 1))
    = Some 2%Z.
Proof.
  split; [by vm_compute|].
  split; [apply (bool_decide_unpack _); by vm_compute|by vm_compute].
Qed.

Lemma unknown_observation_raises_witness :
  ∃ pre o' post,
    [5; 9; 6]%Z = pre ++ o' :: post
    ∧ (∀ x, x ∈ pre → x ∈ hmm_obs example_model)
    ∧ (o' ∉ hmm_obs example_model)
    ∧ decode exact example_model [5; 9; 6]%Z = Raise (KeyError (Some o'))
    ∧ viterbi_dp exact [5; 9; 6]%Z (hmm_states example_model)
        (hmm_obs example_model) (hmm_A example_model) (hmm_B example_model)
        (hmm_st_idx example_model) (hmm_ob_idx example_model)
      = Raise (KeyError (Some o')).
Proof.
  apply (unknown_observation_raises exact example_model [5; 9; 6]%Z 9).
  - apply py_sorted_NoDup.
  - reflexivity.
  - apply (bool_decide_unpack _). by vm_compute.
  - apply (bool_decide_unpack _). by vm_compute.
Defined.

Lemma example_decode :
  viterbi exact [5; 6; 6]%Z (hmm_states example_model) (hmm_obs example_model)
          (hmm_A example_model) (hmm_B example_model)
          (hmm_st_idx example_model) (hmm_ob_idx example_model)
  = Ok [Some 1; Some 2; Some 2]%Z.
Proof. by vm_compute. Qed.

Lemma sentinel_not_in_path_witness :
  viterbi exact [5; 6; 6]%Z (hmm_states example_model) (hmm_obs example_model)
          (hmm_A example_model) (hmm_B example_model)
          (hmm_st_idx example_model) (hmm_ob_idx example_model)
  = Ok [Some 1; Some 2; Some 2]%Z
  ∧ Forall (λ x, x ≠ Some 0%Z) [Some 1; Some 2; Some 2]%Z.
Proof.
  split; [exact example_decode|].
  exact (sentinel_not_in_path exact [5; 6; 6]%Z (hmm_states example_model)
           (hmm_obs example_model) (hmm_A example_model) (hmm_B example_model)
           (hmm_st_idx example_model) (hmm_ob_idx example_model)
           [Some 1; Some 2; Some 2]%Z example_decode).
Defined.

Lemma path_length_witness :
  viterbi exact [5; 6; 6]%Z (hmm_states example_model) (hmm_obs example_model)
          (hmm_A example_model) (hmm_B example_model)
          (hmm_st_idx example_model) (hmm_ob_idx example_model)
  = Ok [Some 1; Some 2; Some 2]%Z
  ∧ length [Some 1; Some 2; Some 2]%Z = length [5; 6; 6]%Z.
Proof.
  split; [exact example_decode|].
  exact (path_length exact [5; 6; 6]%Z (hmm_states example_model)
           (hmm_obs example_model) (hmm_A example_model) (hmm_B example_model)
           (hmm_st_idx example_model) (hmm_ob_idx example_model)
           [Some 1; Some 2; Some 2]%Z example_decode).
Defined.





(** The job above, run: the two paths, whatever the declared lengths. *)
Example job_example :
  main exact (corpus_file example_corpus)
       (job_file [None] [(99, [5; 6; 6]); (0, [5; 6; 5; 5])]%Z)
  = Ok [[Some 1; Some 2; Some 2]; [Some 1; Some 2; Some 1; Some 2]]%Z.
Proof. by vm_compute. Qed.

(** * Further properties of the code *)

(** ** Reading the dataset file *)

Lemma py_ints_Ok l zs : py_ints l = Ok zs ↔ l = ints zs.
Proof.
  split; [|intros ->; apply py_ints_ints].
  unfold py_ints, ints. revert zs.
  induction l as [|[z|] l IH]; intros zs; simpl.
  - by intros [= <-].
  - intros (ys & Hys & [= <-])%bind_Ok. rewrite fmap_cons. f_equal. by apply IH.
  - done.
Qed.

Lemma py_index_None {X : Type} (l : list X) i :
  l !! i = None → py_index l i = Raise IndexError.
Proof. unfold py_index. by intros ->. Qed.

Lemma py_int_Ok l n : py_int l = Ok n ↔ l = [Some n].
Proof.
  split; [|by intros ->].
  destruct l as [|[z|] [|??]]; simpl; try done. by intros [= ->].
Qed.

(** The runs that a successful scan has read, and where it found them. *)
Lemma scan_runs_Ok n lines : ∀ idx c c',
  scan_runs n lines idx c = Ok c' →
  ∃ corpus : list run,
    length corpus = n
    ∧ (∀ i r, corpus !! i = Some r →
         lines !! (idx + 2 * i)%nat = Some (ints r.1)
         ∧ lines !! (idx + 2 * i + 1)%nat = Some (ints r.2))
    ∧ c' = foldl (λ c (r : run), scan_run r.1 r.2 c) c corpus.
Proof.
  induction n as [|n IH]; intros idx c c'; simpl.
  - intros [= <-]. exists []. split; [done|]. split; [|done]. by intros ? ? ?.
  - intros (l1 & Hl1%py_index_Ok & H)%bind_Ok.
    apply bind_Ok in H as (ss & ->%py_ints_Ok & H).
    apply bind_Ok in H as (l2 & Hl2%py_index_Ok & H).
    apply bind_Ok in H as (os & ->%py_ints_Ok & H).
    destruct (IH _ _ _ H) as (corpus & Hlen & Hat & ->).
    exists ((ss, os) :: corpus). split; [simpl; by f_equal|]. split; [|done].
    intros [|i] r Hr; simpl in Hr.
    + injection Hr as <-. simpl.
      replace (idx + 0)%nat with idx by lia. done.
    + destruct (Hat i r Hr) as [H1 H2].
      split; [rewrite <- H1|rewrite <- H2]; f_equal; lia.
Qed.

Lemma scan_runs_app n lines extra : ∀ idx c c',
  scan_runs n lines idx c = Ok c' → scan_runs n (lines ++ extra) idx c = Ok c'.
Proof.
  induction n as [|n IH]; intros idx c c'; simpl; [done|].
  intros (l1 & Hl1%py_index_Ok & H)%bind_Ok.
  apply bind_Ok in H as (ss & Hss & H).
  apply bind_Ok in H as (l2 & Hl2%py_index_Ok & H).
  apply bind_Ok in H as (os & Hos & H).
  rewrite (proj2 (py_index_Ok (lines ++ extra) idx l1))
    by by apply lookup_app_l_Some.
  simpl. rewrite Hss. simpl.
  rewrite (proj2 (py_index_Ok (lines ++ extra) (idx + 1) l2))
    by by apply lookup_app_l_Some.
  simpl. rewrite Hos. simpl. by apply IH.
Qed.

Lemma scan_runs_short n : ∀ (ls : list (list Z)) (pre : list line) c,
  (length ls < 2 * n)%nat →
  scan_runs n (pre ++ (ints <$> ls)) (length pre) c = Raise IndexError.
Proof.
  induction n as [|n IH]; intros ls pre c Hlen; [lia|]. simpl.
  destruct ls as [|a ls].
  { rewrite (py_index_None _ (length pre)); [done|].
    apply lookup_ge_None_2. rewrite length_app. simpl. lia. }
  rewrite fmap_cons.
  rewrite (proj2 (py_index_Ok _ _ _) (list_lookup_middle pre _ (ints a) _ eq_refl)).
  simpl. rewrite py_ints_ints. simpl.
  destruct ls as [|b ls].
  { rewrite (py_index_None _ (length pre + 1)); [done|].
    apply lookup_ge_None_2. rewrite length_app. simpl. lia. }
  rewrite fmap_cons.
  assert ((pre ++ ints a :: ints b :: (ints <$> ls)) !! (length pre + 1)%nat
          = Some (ints b)) as Hb.
  { rewrite lookup_app_r by lia.
    by replace (length pre + 1 - length pre)%nat with 1%nat by lia. }
  rewrite (proj2 (py_index_Ok _ _ _) Hb). simpl.
  rewrite py_ints_ints. simpl.
  specialize (IH ls (pre ++ [ints a; ints b]) (scan_run a b c)).
  rewrite <- app_assoc, length_app in IH. simpl in IH.
  apply IH. simpl in Hlen. lia.
Qed.

Lemma normalise_scan_corpus rnd corpus :
  normalise rnd (foldl (λ c (r : run), scan_run r.1 r.2 c) counts_init corpus)
  = Ok (model_of rnd corpus).
Proof. apply estimate_model_of. Qed.

Lemma load_hmm_Ok_inv rnd lines m :
  load_hmm rnd lines = Ok m →
  ∃ n (corpus : list run),
    lines !! 0%nat = Some [Some n]
    ∧ length corpus = Z.to_nat n
    ∧ (∀ i r, corpus !! i = Some r →
         lines !! (1 + 2 * i)%nat = Some (ints r.1)
         ∧ lines !! (2 + 2 * i)%nat = Some (ints r.2))
    ∧ m = model_of rnd corpus.
Proof.
  unfold load_hmm, count_pass.
  intros (c & Hc & Hm)%bind_Ok.
  apply bind_Ok in Hc as (l0 & Hl0%py_index_Ok & Hc).
  apply bind_Ok in Hc as (n & ->%py_int_Ok & Hc).
  apply scan_runs_Ok in Hc as (corpus & Hlen & Hat & ->).
  rewrite normalise_scan_corpus in Hm. injection Hm as <-.
  exists n, corpus. repeat split; try done.
  - by apply Hat.
  - destruct (Hat i r H) as [_ H2].
    by replace (2 + 2 * i)%nat with (1 + 2 * i + 1)%nat by lia.
Qed.

(** X1.  A model returned by [load_hmm] is the model of the runs that the
    file declares: the first line is one integer [n], the next [2n] lines
    are the state and observation lines of [n] runs, and nothing else of the
    file is used. *)
Theorem load_hmm_reads_declared_runs rnd lines m :
  load_hmm rnd lines = Ok m →
  ∃ n (corpus : list run),
    lines !! 0%nat = Some [Some n]
    ∧ length corpus = Z.to_nat n
    ∧ (∀ i r, corpus !! i = Some r →
         lines !! (1 + 2 * i)%nat = Some (ints r.1)
         ∧ lines !! (2 + 2 * i)%nat = Some (ints r.2))
    ∧ m = model_of rnd corpus.
Proof. apply load_hmm_Ok_inv. Qed.

Lemma load_hmm_reads_declared_runs_witness :
  load_hmm exact ([Some 1%Z] :: ints [1; 1; 2]%Z :: ints [5; 5; 6]%Z
                  :: [[None]; []])
  = Ok (model_of exact [([1; 1; 2], [5; 5; 6])%Z])
  ∧ ∃ n (corpus : list run),
      ([Some 1%Z] :: ints [1; 1; 2]%Z :: ints [5; 5; 6]%Z :: [[None]; []])
        !! 0%nat = Some [Some n]
      ∧ length corpus = Z.to_nat n
      ∧ (∀ i r, corpus !! i = Some r →
           ([Some 1%Z] :: ints [1; 1; 2]%Z :: ints [5; 5; 6]%Z :: [[None]; []])
             !! (1 + 2 * i)%nat = Some (ints r.1)
           ∧ ([Some 1%Z] :: ints [1; 1; 2]%Z :: ints [5; 5; 6]%Z
              :: [[None]; []])
               !! (2 + 2 * i)%nat = Some (ints r.2))
      ∧ model_of exact [([1; 1; 2], [5; 5; 6])%Z] = model_of exact corpus.
Proof.
  assert (load_hmm exact ([Some 1%Z] :: ints [1; 1; 2]%Z :: ints [5; 5; 6]%Z
                          :: [[None]; []])
          = Ok (model_of exact [([1; 1; 2], [5; 5; 6])%Z])) as Hload.
  { apply (bool_decide_unpack _). by vm_compute. }
  split; [exact Hload|].
  exact (load_hmm_reads_declared_runs exact _ _ Hload).
Defined.

(** X2.  Lines after the declared runs are ignored, whatever they hold. *)
Theorem load_hmm_ignores_trailing_lines rnd (corpus : list run)
    (extra : list line) :
  load_hmm rnd (corpus_file corpus ++ extra) = Ok (model_of rnd corpus).
Proof.
  assert (scan_runs (length corpus) (corpus_file corpus ++ extra) 1 counts_init
          = Ok (scan_corpus corpus)) as H.
  { apply scan_runs_app.
    apply (scan_runs_corpus corpus [[Some (Z.of_nat (length corpus))]]). }
  unfold load_hmm, count_pass, corpus_file in *. simpl in *.
  rewrite Nat2Z.id, H. simpl. apply estimate_model_of.
Qed.

(** X3.  When fewer than [2n] lines follow a first line that declares [n]
    runs, [load_hmm] raises [IndexError]: also when the last run has its
    state line but no observation line. *)
Theorem load_hmm_missing_lines rnd (n : Z) (ls : list (list Z)) :
  (length ls < 2 * Z.to_nat n)%nat →
  load_hmm rnd ([Some n] :: (ints <$> ls)) = Raise IndexError.
Proof.
  intros Hlen.
  pose proof (scan_runs_short (Z.to_nat n) ls [[Some n]] counts_init Hlen) as H.
  unfold load_hmm, count_pass. simpl in *. by rewrite H.
Qed.

Lemma load_hmm_missing_lines_witness :
  (length [[1; 1; 2]; [5; 5; 6]; [1; 2]]%Z < 2 * Z.to_nat 2)%nat
  ∧ load_hmm exact ([Some 2%Z] :: (ints <$> [[1; 1; 2]; [5; 5; 6]; [1; 2]]%Z))
    = Raise IndexError.
Proof.
  split; [simpl; lia|].
  apply (load_hmm_missing_lines exact 2 [[1; 1; 2]; [5; 5; 6]; [1; 2]]%Z).
  simpl. lia.
Defined.

(** X4.  A first line that is not exactly one integer makes [load_hmm]
    raise [ValueError] before any run is read; an empty file raises
    [IndexError]. *)
Theorem load_hmm_bad_header rnd (l : line) (rest : list line) :
  (∀ n, l ≠ [Some n]) →
  load_hmm rnd (l :: rest) = Raise ValueError
  ∧ load_hmm rnd [] = Raise IndexError.
Proof.
  intros Hl. split; [|done].
  unfold load_hmm, count_pass. simpl.
  destruct (py_int l) as [n|e] eqn:E.
  - apply py_int_Ok in E. by destruct (Hl n).
  - simpl. f_equal. unfold py_int in E.
    destruct l as [|[z|] [|??]]; simpl in E; congruence.
Qed.

Lemma load_hmm_bad_header_witness :
  load_hmm exact ([Some 1; Some 2]%Z :: [ints [1]%Z; ints [5]%Z])
  = Raise ValueError
  ∧ load_hmm exact [] = Raise IndexError.
Proof.
  apply (load_hmm_bad_header exact [Some 1; Some 2]%Z [ints [1]%Z; ints [5]%Z]).
  intros n. discriminate.
Defined.

(** X5.  A declared number of runs that is zero or negative gives the empty
    model, whatever follows the first line. *)
Theorem load_hmm_no_runs rnd (n : Z) (rest : list line) :
  (n ≤ 0)%Z → load_hmm rnd ([Some n] :: rest) = Ok empty_model.
Proof.
  intros Hn. unfold load_hmm, count_pass. simpl.
  replace (Z.to_nat n) with 0%nat by lia. simpl.
  by rewrite normalise_spec.
Qed.

Lemma load_hmm_no_runs_witness :
  (-3 ≤ 0)%Z
  ∧ load_hmm exact ([Some (-3)%Z] :: [ints [1; 2]%Z; [None]]) = Ok empty_model.
Proof.
  split; [lia|].
  apply (load_hmm_no_runs exact (-3) [ints [1; 2]%Z; [None]]). lia.
Defined.

(** ** Invariants of the estimated model *)

Lemma sorted_le_NoDup_lt (l : list Z) :
  StronglySorted Z.le l → NoDup l → StronglySorted Z.lt l.
Proof.
  induction l as [|x l IH]; intros Hs Hnd; [constructor|].
  apply StronglySorted_inv in Hs as [Hs Hall].
  apply NoDup_cons in Hnd as [Hx Hnd].
  constructor; [by apply IH|].
  apply Forall_forall. intros y Hy.
  pose proof (proj1 (Forall_forall _ _) Hall y Hy) as Hle.
  assert (x ≠ y) by (by intros ->). lia.
Qed.

Lemma py_sorted_lt s : StronglySorted Z.lt (py_sorted s).
Proof.
  apply sorted_le_NoDup_lt; [apply py_sorted_sorted|apply py_sorted_NoDup].
Qed.

(** X6.  Every model returned by [load_hmm], on any file, satisfies the
    invariants of the data model: both label lists are strictly increasing,
    the index maps send each label to its position, [A] is [N x N], [B] is
    [N x M] and no entry is negative. *)
Theorem load_hmm_well_formed rnd lines m :
  rnd_mono rnd → rnd_zero rnd →
  load_hmm rnd lines = Ok m →
  wf_model m
  ∧ StronglySorted Z.lt (hmm_states m)
  ∧ StronglySorted Z.lt (hmm_obs m).
Proof.
  intros Hmono Hzero (n & corpus & _ & _ & _ & ->)%load_hmm_Ok_inv.
  split; [by apply model_of_wf|]. split; apply py_sorted_lt.
Qed.

Lemma load_hmm_well_formed_witness :
  load_hmm exact (corpus_file example_corpus) = Ok example_model
  ∧ wf_model example_model
  ∧ StronglySorted Z.lt (hmm_states example_model)
  ∧ StronglySorted Z.lt (hmm_obs example_model).
Proof.
  split; [apply load_hmm_model_of|].
  exact (load_hmm_well_formed exact (corpus_file example_corpus) example_model
           rnd_mono_exact rnd_zero_exact (load_hmm_model_of _ _)).
Defined.

(** X7.  The state list of the model holds exactly the labels that occur in
    some state sequence of the corpus, and the observation list exactly the
    labels that occur in some observation sequence, also those beyond the
    end of a shorter partner sequence. *)
Theorem model_label_sets rnd (corpus : list run) :
  ∃ m, load_hmm rnd (corpus_file corpus) = Ok m
       ∧ (∀ s, s ∈ hmm_states m ↔ ∃ r : run, r ∈ corpus ∧ s ∈ r.1)
       ∧ (∀ o, o ∈ hmm_obs m ↔ ∃ r : run, r ∈ corpus ∧ o ∈ r.2).
Proof.
  exists (model_of rnd corpus). split; [apply load_hmm_model_of|].
  split; intros x; simpl; rewrite elem_of_py_sorted.
  - apply elem_of_corpus_states.
  - apply elem_of_corpus_obs.
Qed.

(** X8.  In the model of a corpus the index maps and the label lists are
    inverse to each other: [st_idx[s] = i] exactly when [states[i] = s], and
    [ob_idx[o] = j] exactly when [obs[j] = o]. *)
Theorem model_index_round_trip rnd (corpus : list run) :
  ∃ m, load_hmm rnd (corpus_file corpus) = Ok m
       ∧ (∀ s i, hmm_st_idx m !! s = Some i ↔ hmm_states m !! i = Some s)
       ∧ (∀ o j, hmm_ob_idx m !! o = Some j ↔ hmm_obs m !! j = Some o).
Proof.
  exists (model_of rnd corpus). split; [apply load_hmm_model_of|].
  split; intros x i; simpl; apply index_map_lookup, py_sorted_NoDup.
Qed.

Lemma matrix_of_get rnd rows cols cnt total i j r c :
  rows !! i = Some r → cols !! j = Some c →
  mat_get (matrix_of rnd rows cols cnt total) i j
  = Ok (ratio rnd (cnt r c) (total r)).
Proof.
  intros Hr Hc. apply mat_get_Ok.
  exists ((λ c, ratio rnd (cnt r c) (total r)) <$> cols). split.
  - unfold matrix_of. by rewrite list_lookup_fmap, Hr.
  - by rewrite list_lookup_fmap, Hc.
Qed.

(** X9.  The entries of the estimated matrices are relative frequencies:
    [A[i][j]] is the number of transitions from state [i] to state [j]
    divided by the number of transitions out of [i], [B[i][j]] the number of
    aligned pairs (state [i], observation [j]) divided by the number of
    aligned pairs with state [i]; an entry is [0.0] when its divisor is
    [0]. *)
Theorem estimated_entries rnd (corpus : list run) :
  ∃ m, load_hmm rnd (corpus_file corpus) = Ok m
       ∧ (∀ i j s s',
            hmm_states m !! i = Some s → hmm_states m !! j = Some s' →
            mat_get (hmm_A m) i j
            = Ok (if decide (0 < total_out corpus s)%nat
                  then rnd (Qc_of_Z (Z.of_nat (trans_count corpus s s'))
                            / Qc_of_Z (Z.of_nat (total_out corpus s)))
                  else 0))
       ∧ (∀ i j s o,
            hmm_states m !! i = Some s → hmm_obs m !! j = Some o →
            mat_get (hmm_B m) i j
            = Ok (if decide (0 < total_occ corpus s)%nat
                  then rnd (Qc_of_Z (Z.of_nat (emit_count corpus s o))
                            / Qc_of_Z (Z.of_nat (total_occ corpus s)))
                  else 0)).
Proof.
  exists (model_of rnd corpus). split; [apply load_hmm_model_of|].
  split; intros i j s x Hs Hx; simpl in *;
    by rewrite (matrix_of_get _ _ _ _ _ i j s x Hs Hx).
Qed.

Lemma quot_le_1 (c t : nat) :
  (0 < t)%nat → (c ≤ t)%nat →
  Qc_of_Z (Z.of_nat c) / Qc_of_Z (Z.of_nat t) ≤ 1.
Proof.
  intros Ht Hct. rewrite <- (quot_self t Ht). unfold Qcdiv.
  apply Qcmult_le_mono_nonneg_r.
  - apply Qclt_le_weak, Qcinv_pos.
    rewrite <- Z2Qc_inj_0. apply (proj1 (Z2Qc_inj_lt _ _)). lia.
  - apply (proj1 (Z2Qc_inj_le _ _)). lia.
Qed.

Lemma ratio_le_1 rnd c t :
  rnd_mono rnd → rnd 1 = 1 → (c ≤ t)%nat → ratio rnd c t ≤ 1.
Proof.
  intros Hmono Hone Hct. unfold ratio.
  destruct (decide (0 < t)%nat); [|done].
  rewrite <- Hone. apply Hmono. by apply quot_le_1.
Qed.

Lemma matrix_of_Forall rnd rows cols cnt total (P : Qc → Prop) :
  (∀ r c, r ∈ rows → c ∈ cols → P (ratio rnd (cnt r c) (total r))) →
  Forall (Forall P) (matrix_of rnd rows cols cnt total).
Proof.
  intros HP. unfold matrix_of.
  apply Forall_fmap, Forall_forall. intros r Hr. simpl.
  apply Forall_fmap, Forall_forall. intros c Hc. simpl. by apply HP.
Qed.

Lemma model_of_probabilities rnd corpus :
  rnd_mono rnd → rnd_zero rnd → rnd 1 = 1 →
  Forall (Forall (λ x, 0 ≤ x ∧ x ≤ 1)) (hmm_A (model_of rnd corpus))
  ∧ Forall (Forall (λ x, 0 ≤ x ∧ x ≤ 1)) (hmm_B (model_of rnd corpus)).
Proof.
  intros Hmono Hzero Hone. split; simpl; apply matrix_of_Forall.
  - intros s s' _ Hs'. split; [by apply ratio_nonneg|].
    apply ratio_le_1; [done..|].
    rewrite <- trans_count_row_sum. by apply sum_list_with_in.
  - intros s o _ Ho. split; [by apply ratio_nonneg|].
    apply ratio_le_1; [done..|].
    rewrite <- emit_count_row_sum. by apply sum_list_with_in.
Qed.

(** X10.  Every entry of the matrices returned by [load_hmm] lies between 0
    and 1, for a rounding that is monotone and leaves 0 and 1 alone. *)
Theorem estimated_entries_are_probabilities rnd lines m :
  rnd_mono rnd → rnd_zero rnd → rnd 1 = 1 →
  load_hmm rnd lines = Ok m →
  Forall (Forall (λ x, 0 ≤ x ∧ x ≤ 1)) (hmm_A m)
  ∧ Forall (Forall (λ x, 0 ≤ x ∧ x ≤ 1)) (hmm_B m).
Proof.
  intros Hmono Hzero Hone (n & corpus & _ & _ & _ & ->)%load_hmm_Ok_inv.
  by apply model_of_probabilities.
Qed.

Lemma estimated_entries_are_probabilities_witness :
  load_hmm exact (corpus_file example_corpus) = Ok example_model
  ∧ Forall (Forall (λ x, 0 ≤ x ∧ x ≤ 1)) (hmm_A example_model)
  ∧ Forall (Forall (λ x, 0 ≤ x ∧ x ≤ 1)) (hmm_B example_model).
Proof.
  split; [apply load_hmm_model_of|].
  exact (estimated_entries_are_probabilities exact
           (corpus_file example_corpus) example_model
           rnd_mono_exact rnd_zero_exact eq_refl (load_hmm_model_of _ _)).
Defined.

(** ** Decoding: inputs on which [viterbi] raises *)

Lemma filter_candidates_nil (states : list Z) :
  Forall (λ s, s = start_state) states →
  filter (λ s, s ≠ start_state) states = [].
Proof.
  induction states as [|s l IH]; intros Hall; [done|].
  apply Forall_cons in Hall as [-> Hall].
  rewrite filter_cons, decide_False by (intros H; by apply H). by apply IH.
Qed.

Lemma mapR_getitem_known (d : gmap Z nat) l :
  Forall (λ o, is_Some (d !! o)) l → ∃ ids, mapR (py_getitem d) l = Ok ids.
Proof.
  induction l as [|o l IH]; intros Hall; [by exists []|].
  apply Forall_cons in Hall as [[i Hi] Hall].
  destruct (IH Hall) as [ids Hids].
  exists (i :: ids). simpl.
  rewrite (proj2 (py_getitem_Ok _ _ _) Hi). simpl. by rewrite Hids.
Qed.

Lemma step_loop_no_candidates rnd states A B st_idx obs_ids dp t :
  filter (λ s, s ≠ start_state) states = [] →
  step_loop rnd states A B st_idx obs_ids dp t = Ok dp.
Proof.
  intros Hnil. unfold step_loop. rewrite (foldM_skip (λ s, s = start_state)).
  change (filter _ states) with (filter (λ s, s ≠ start_state) states).
  by rewrite Hnil.
Qed.

Lemma time_loop_no_candidates rnd states A B st_idx obs_ids ts : ∀ dp,
  filter (λ s, s ≠ start_state) states = [] →
  foldM (step_loop rnd states A B st_idx obs_ids) dp ts = Ok dp.
Proof.
  intros dp Hnil. induction ts as [|t ts IH]; [done|].
  cbn [foldM]. rewrite step_loop_no_candidates by done. apply IH.
Qed.

(** X11.  With no state other than [0] in the state list, [viterbi] raises
    [ValueError] (the [max] of an empty table row) for every non-empty
    sequence of known observations, whatever the matrices are. *)
Theorem viterbi_no_candidate rnd obs_seq states obs A B st_idx ob_idx :
  Forall (λ s, s = 0%Z) states →
  Forall (λ o, is_Some (ob_idx !! o)) obs_seq →
  obs_seq ≠ [] →
  viterbi rnd obs_seq states obs A B st_idx ob_idx = Raise ValueError.
Proof.
  intros Hstates Hobs Hne.
  pose proof (filter_candidates_nil states Hstates) as Hnil.
  destruct (mapR_getitem_known _ _ Hobs) as [ids Hids].
  unfold viterbi, viterbi_dp. rewrite Hids. simpl.
  unfold init_loop. rewrite (foldM_filter (λ s, s ≠ start_state)), Hnil.
  simpl. rewrite time_loop_no_candidates by done. simpl.
  unfold backtrack, py_last. rewrite last_lookup, length_replicate.
  rewrite lookup_replicate_2; [done|].
  destruct obs_seq; [done|simpl; lia].
Qed.

Lemma viterbi_no_candidate_witness :
  viterbi exact [5; 6]%Z [0]%Z [5; 6]%Z [[1]] [[Q2Qc (1 # 2); Q2Qc (1 # 2)]]
          (index_map [0]%Z) (index_map [5; 6]%Z)
  = Raise ValueError.
Proof.
  apply (viterbi_no_candidate exact [5; 6]%Z [0]%Z [5; 6]%Z [[1]]
           [[Q2Qc (1 # 2); Q2Qc (1 # 2)]] (index_map [0]%Z)
           (index_map [5; 6]%Z)).
  - apply (bool_decide_unpack _). by vm_compute.
  - apply (bool_decide_unpack _). by vm_compute.
  - done.
Defined.

(** X12.  When the label [0] has no index (it never occurred as a state)
    and the state list holds some other state, [viterbi] raises
    [KeyError(0)] at the first candidate of the initialisation loop, for
    every sequence of known observations (the empty one included). *)
Theorem viterbi_missing_start rnd obs_seq states obs A B st_idx ob_idx s :
  st_idx !! 0%Z = None →
  s ∈ states → s ≠ 0%Z →
  Forall (λ o, is_Some (ob_idx !! o)) obs_seq →
  viterbi rnd obs_seq states obs A B st_idx ob_idx
  = Raise (KeyError (Some 0%Z)).
Proof.
  intros Hst Hs Hs0 Hobs.
  destruct (mapR_getitem_known _ _ Hobs) as [ids Hids].
  unfold viterbi, viterbi_dp. rewrite Hids. simpl.
  unfold init_loop. rewrite (foldM_filter (λ s, s ≠ start_state)).
  assert (s ∈ filter (λ s, s ≠ start_state) states) as Hin
    by by apply list_elem_of_filter.
  destruct (filter (λ s, s ≠ start_state) states) as [|s0 l];
    [by apply elem_of_nil in Hin|].
  simpl. by rewrite (py_getitem_None st_idx start_state Hst).
Qed.

Lemma viterbi_missing_start_witness :
  viterbi exact [5]%Z [1; 2]%Z [5; 6]%Z [[0; 1]; [0; 0]] [[1; 0]; [0; 1]]
          (index_map [1; 2]%Z) (index_map [5; 6]%Z)
  = Raise (KeyError (Some 0%Z)).
Proof.
  apply (viterbi_missing_start exact [5]%Z [1; 2]%Z [5; 6]%Z
           [[0; 1]; [0; 0]] [[1; 0]; [0; 1]] (index_map [1; 2]%Z)
           (index_map [5; 6]%Z) 1%Z).
  - by vm_compute.
  - apply (bool_decide_unpack _). by vm_compute.
  - done.
  - apply (bool_decide_unpack _). by vm_compute.
Defined.

(** X13.  On the empty observation sequence [viterbi] raises [IndexError]
    for every well-formed model that contains the label [0]: at
    [obs_ids[0]] when there is a candidate state, at [dp[-1]] otherwise. *)
Theorem decode_empty_sequence rnd m :
  wf_model m → 0%Z ∈ hmm_states m →
  decode rnd m [] = Raise IndexError.
Proof.
  intros Hwf Hstart. unfold decode, viterbi, viterbi_dp. simpl.
  unfold init_loop. rewrite (foldM_filter (λ s, s ≠ start_state)).
  change (filter _ (hmm_states m)) with (candidates m).
  destruct (candidates m) as [|s l] eqn:E; [done|].
  assert (s ∈ candidates m) as [_ Hs]%elem_of_cand by (rewrite E; left).
  simpl.
  rewrite (proj1 (st_idx_Ok m Hwf start_state Hstart)). simpl.
  rewrite (proj1 (st_idx_Ok m Hwf s Hs)). simpl.
  by rewrite (mat_get_A m Hwf start_state s Hstart Hs).
Qed.

Lemma decode_empty_sequence_witness :
  decode exact example_model [] = Raise IndexError.
Proof.
  exact (decode_empty_sequence exact example_model example_model_wf
           example_has_start).
Defined.

(** ** Decoding: the returned path *)

Lemma spec_backtrace_shape rnd m obs_seq t : ∀ s,
  rnd_mono rnd → rnd_zero rnd → wf_model m →
  s ∈ candidates m →
  length (spec_backtrace rnd m obs_seq t s) = S t
  ∧ Forall (λ x, x ∈ candidates m) (spec_backtrace rnd m obs_seq t s)
  ∧ ∃ tl, spec_backtrace rnd m obs_seq t s = s :: tl.
Proof.
  induction t as [|t IH]; intros s Hmono Hzero Hwf Hs.
  - simpl. repeat split; [by constructor|by exists []].
  - destruct (spec_backptr_achieves rnd m obs_seq t s Hmono Hzero Hwf Hs)
      as [Hb _].
    destruct (IH _ Hmono Hzero Hwf Hb) as (Hlen & Hall & _).
    cbn [spec_backtrace]. repeat split.
    + cbn [length]. by rewrite Hlen.
    + by constructor.
    + by eexists.
Qed.

Lemma spec_decode_Some rnd m obs_seq :
  rnd_mono rnd → rnd_zero rnd → wf_model m →
  candidates m ≠ [] →
  ∃ final,
    argmax_first (candidates m) (spec_score rnd m obs_seq (length obs_seq - 1))
    = Some final
    ∧ final ∈ candidates m
    ∧ spec_decode rnd m obs_seq
      = Some (reverse (spec_backtrace rnd m obs_seq (length obs_seq - 1) final)).
Proof.
  intros Hmono Hzero Hwf Hne. unfold spec_decode.
  destruct (argmax_first (candidates m) _) as [final|] eqn:E.
  - exists final. split; [done|]. split; [|done].
    by apply argmax_first_value in E as [_ ?].
  - destruct (candidates m); done.
Qed.

(** X14.  For a well-formed model that contains the label [0] and at least
    one other state, [viterbi] returns a path for every non-empty sequence
    of known observations; the path has one state per observation, and each
    of them is a state of the model other than [0] (never [None]). *)
Theorem decode_returns_candidates rnd m (obs_seq : list Z) :
  rnd_mono rnd → rnd_zero rnd →
  wf_model m →
  0%Z ∈ hmm_states m →
  candidates m ≠ [] →
  obs_seq ≠ [] →
  (∀ o, o ∈ obs_seq → o ∈ hmm_obs m) →
  ∃ path,
    decode rnd m obs_seq = Ok (Some <$> path)
    ∧ length path = length obs_seq
    ∧ Forall (λ s, s ∈ hmm_states m ∧ s ≠ 0%Z) path.
Proof.
  intros Hmono Hzero Hwf Hstart Hcand Hne Hobs.
  destruct (spec_decode_Some rnd m obs_seq Hmono Hzero Hwf Hcand)
    as (final & _ & Hfinal & Hdec).
  destruct (spec_backtrace_shape rnd m obs_seq (length obs_seq - 1) final
              Hmono Hzero Hwf Hfinal) as (Hlen & Hall & _).
  exists (reverse (spec_backtrace rnd m obs_seq (length obs_seq - 1) final)).
  split; [by rewrite decode_spec, Hdec|].
  split.
  - rewrite length_reverse, Hlen. destruct obs_seq; [done|simpl; lia].
  - apply Forall_reverse. eapply Forall_impl; [exact Hall|].
    intros s [? ?]%elem_of_cand. done.
Qed.

Lemma example_candidates : candidates example_model ≠ [].
Proof. by vm_compute. Qed.

Lemma decode_returns_candidates_witness :
  ∃ path,
    decode exact example_model [5; 6; 6]%Z = Ok (Some <$> path)
    ∧ length path = length [5; 6; 6]%Z
    ∧ Forall (λ s, s ∈ hmm_states example_model ∧ s ≠ 0%Z) path.
Proof.
  exact (decode_returns_candidates exact example_model [5; 6; 6]%Z
           rnd_mono_exact rnd_zero_exact example_model_wf example_has_start
           example_candidates ltac:(done) example_obs_known).
Defined.

(** ** Decoding: the returned path is a most probable one *)

Lemma max_over_ge (f : Z → Qc) l p : p ∈ l → f p ≤ max_over l f.
Proof.
  assert (∀ l acc,
    acc ≤ foldl (λ acc q, Qc_max acc (f q)) acc l
    ∧ ∀ q, q ∈ l → f q ≤ foldl (λ acc q, Qc_max acc (f q)) acc l) as Hgen.
  { clear. induction l as [|x l IH]; intros acc; simpl.
    - split; [done|]. by intros q ?%elem_of_nil.
    - destruct (IH (Qc_max acc (f x))) as [IH1 IH2].
      assert (acc ≤ Qc_max acc (f x) ∧ f x ≤ Qc_max acc (f x)) as [Ha Hx].
      { unfold Qc_max. destruct (decide (acc ≤ f x)) as [?|Hn]; [done|].
        split; [done|]. apply Qclt_le_weak. by apply Qcnot_le_lt. }
      split; [by etrans|].
      intros q [->|Hq]%elem_of_cons; [by etrans|by apply IH2]. }
  destruct l as [|x l]; [by intros ?%elem_of_nil|]. simpl.
  destruct (Hgen l (f x)) as [H1 H2].
  intros [->|Hp]%elem_of_cons; [done|by apply H2].
Qed.

Lemma fmul_mono_l rnd x y b :
  rnd_mono rnd → 0 ≤ b → x ≤ y → fmul rnd x b ≤ fmul rnd y b.
Proof.
  intros Hmono Hb Hxy. apply Hmono. by apply Qcmult_le_mono_nonneg_r.
Qed.

Lemma rev_path_score_cons rnd m obs_seq s p r :
  rev_path_score rnd m obs_seq (s :: p :: r)
  = fmul rnd (fmul rnd (rev_path_score rnd m obs_seq (p :: r)) (spec_A m p s))
         (spec_B m s (obs_at obs_seq (length (p :: r)))).
Proof. done. Qed.

Section Optimal.

Context (rnd : Qc → Qc) (m : hmm) (obs_seq : list Z).
Hypothesis Hmono : rnd_mono rnd.
Hypothesis Hzero : rnd_zero rnd.
Hypothesis Hwf : wf_model m.

(** No path ending in [s] after [t] steps scores more than [score[t][s]]. *)
Lemma rev_path_score_le r : ∀ s,
  Forall (λ x, x ∈ candidates m) (s :: r) →
  rev_path_score rnd m obs_seq (s :: r) ≤ spec_score rnd m obs_seq (length r) s.
Proof.
  induction r as [|p r IH]; intros s Hall; [done|].
  apply Forall_cons in Hall as [Hs Hall].
  pose proof Hall as [Hp _]%Forall_cons.
  cbn [rev_path_score length spec_score].
  apply fmul_mono_l; [done|by apply spec_B_nonneg|].
  etrans; [|apply (max_over_ge
                     (λ p, fmul rnd (spec_score rnd m obs_seq (length r) p)
                                (spec_A m p s)) _ p Hp)].
  apply fmul_mono_l; [done|by apply spec_A_nonneg|]. by apply IH.
Qed.

(** The backtrace from [s] at time [t] scores exactly [score[t][s]]. *)
Lemma rev_path_score_backtrace t : ∀ s,
  s ∈ candidates m →
  rev_path_score rnd m obs_seq (spec_backtrace rnd m obs_seq t s)
  = spec_score rnd m obs_seq t s.
Proof.
  induction t as [|t IH]; intros s Hs; [done|].
  destruct (spec_backptr_achieves rnd m obs_seq t s Hmono Hzero Hwf Hs)
    as [Hb Hval].
  destruct (spec_backtrace_shape rnd m obs_seq t _ Hmono Hzero Hwf Hb)
    as (Hlen & _ & tl & Htl).
  cbn [spec_backtrace]. rewrite Htl, rev_path_score_cons.
  rewrite <- Htl, Hlen, (IH _ Hb). exact Hval.
Qed.

Lemma decoded_path_is_best path q :
  0%Z ∈ hmm_states m →
  obs_seq ≠ [] →
  (∀ o, o ∈ obs_seq → o ∈ hmm_obs m) →
  decode rnd m obs_seq = Ok (Some <$> path) →
  length q = length obs_seq →
  Forall (λ s, s ∈ hmm_states m ∧ s ≠ 0%Z) q →
  path_score rnd m obs_seq q ≤ path_score rnd m obs_seq path.
Proof.
  intros Hstart Hne Hobs Hdec Hlen Hq.
  assert (candidates m ≠ []) as Hcand.
  { destruct q as [|s q]; [by destruct obs_seq|].
    apply Forall_cons in Hq as [[Hs Hs0] _].
    intros Hnil. assert (s ∈ candidates m) as Hin by by apply elem_of_cand.
    rewrite Hnil in Hin. by apply elem_of_nil in Hin. }
  destruct (spec_decode_Some rnd m obs_seq Hmono Hzero Hwf Hcand)
    as (final & Harg & Hfinal & Hspec).
  rewrite decode_spec, Hspec in Hdec by done.
  injection Hdec as Hdec. apply (inj (fmap Some)) in Hdec. subst path.
  unfold path_score. rewrite reverse_involutive.
  rewrite rev_path_score_backtrace by done.
  destruct (reverse q) as [|s r] eqn:Er.
  { apply (f_equal length) in Er. rewrite length_reverse in Er.
    destruct obs_seq; [done|]. simpl in *. lia. }
  assert (length r = (length obs_seq - 1)%nat) as Hr.
  { apply (f_equal length) in Er. rewrite length_reverse in Er.
    simpl in Er. lia. }
  assert (Forall (λ x, x ∈ candidates m) (s :: r)) as Hall.
  { rewrite <- Er. apply Forall_reverse. eapply Forall_impl; [exact Hq|].
    intros x [? ?]. by apply elem_of_cand. }
  etrans; [by apply rev_path_score_le|]. rewrite Hr.
  apply argmax_first_value in Harg as [-> _].
  apply (max_over_ge (spec_score rnd m obs_seq (length obs_seq - 1))).
  by apply Forall_cons in Hall as [? _].
Qed.

End Optimal.

(** X15.  The path returned by [viterbi] is a most probable one: among all
    sequences of states other than [0], one per observation, none has a
    greater probability, where the probability of a path is the product
    [A[0][s_0] * B[s_0][o_0] * A[s_0][s_1] * B[s_1][o_1] * ...] computed in
    the order and with the rounding of [viterbi]. *)
Theorem viterbi_path_is_most_probable rnd m (obs_seq : list Z) path q :
  rnd_mono rnd → rnd_zero rnd →
  wf_model m →
  0%Z ∈ hmm_states m →
  obs_seq ≠ [] →
  (∀ o, o ∈ obs_seq → o ∈ hmm_obs m) →
  decode rnd m obs_seq = Ok (Some <$> path) →
  length q = length obs_seq →
  Forall (λ s, s ∈ hmm_states m ∧ s ≠ 0%Z) q →
  path_score rnd m obs_seq q ≤ path_score rnd m obs_seq path.
Proof. intros. by apply decoded_path_is_best. Qed.

Lemma viterbi_path_is_most_probable_witness :
  decode exact example_model [5; 6; 6]%Z = Ok (Some <$> [1; 2; 2]%Z)
  ∧ path_score exact example_model [5; 6; 6]%Z [2; 2; 2]%Z
    ≤ path_score exact example_model [5; 6; 6]%Z [1; 2; 2]%Z.
Proof.
  assert (decode exact example_model [5; 6; 6]%Z = Ok (Some <$> [1; 2; 2]%Z))
    as Hdec by by vm_compute.
  split; [exact Hdec|].
  apply (viterbi_path_is_most_probable exact example_model [5; 6; 6]%Z
           [1; 2; 2]%Z [2; 2; 2]%Z rnd_mono_exact rnd_zero_exact
           example_model_wf example_has_start ltac:(done) example_obs_known
           Hdec eq_refl).
  apply (bool_decide_unpack _). by vm_compute.
Defined.

(** The scores of the two paths of the example above. *)
Example path_score_example :
  path_score exact example_model [5; 6; 6]%Z [1; 2; 2]%Z = Q2Qc (1 # 9)
  ∧ path_score exact example_model [5; 6; 6]%Z [2; 2; 2]%Z = Q2Qc (1 # 54).
Proof. split; apply (bool_decide_unpack _); by vm_compute. Qed.

(** ** The job file *)

Lemma foldM_append_mapR {X Y : Type} (f : X → result Y) l : ∀ acc,
  foldM (λ acc x, p ← f x; Ok (acc ++ [p])) acc l
  = ys ← mapR f l; Ok (acc ++ ys).
Proof.
  induction l as [|x l IH]; intros acc; simpl.
  - by rewrite app_nil_r.
  - destruct (f x) as [p|e]; simpl; [|done]. rewrite IH.
    destruct (mapR f l) as [ys|e]; simpl; [|done].
    by rewrite <- app_assoc.
Qed.




Lemma mapR_raise {X Y : Type} (f : X → result Y) l x e :
  x ∈ l → f x = Raise e → ∃ e', mapR f l = Raise e'.
Proof.
  induction l as [|y l IH]; intros Hx Hf; [by apply elem_of_nil in Hx|].
  simpl. destruct (f y) as [p|e1] eqn:E; simpl; [|by eexists].
  apply elem_of_cons in Hx as [->|Hx]; [congruence|].
  destruct (IH Hx Hf) as [e' ->]. by eexists.
Qed.

(** X17.  One test case with an observation label that the dataset does not
    contain makes the whole job raise: no path is returned, not even for
    the test cases before it. *)
Theorem main_aborts_on_unknown_observation rnd dataset (path : line)
    (tests : list (Z * list Z)) m (tc : Z * list Z) o :
  load_hmm rnd dataset = Ok m →
  tc ∈ tests → o ∈ tc.2 → o ∉ hmm_obs m →
  ∃ e, main rnd dataset (job_file path tests) = Raise e.
Proof.
  intros Hm Htc Ho Hno. rewrite main_job, Hm. cbn [mbind result_bind].
  rewrite foldM_append_mapR.
  apply load_hmm_Ok_inv in Hm as (n & corpus & _ & _ & _ & ->).
  assert (hmm_ob_idx (model_of rnd corpus) !! o = None) as Hnone.
  { simpl. apply index_map_None; [apply py_sorted_NoDup|done]. }
  destruct (mapR_getitem_raise _ _ _ Ho Hnone) as (pre & o' & post & _ & _ & _ & Hr).
  destruct (mapR_raise (λ tc : Z * list Z, decode rnd (model_of rnd corpus) tc.2)
              tests tc (KeyError (Some o')) Htc) as [e He].
  { unfold decode, viterbi, viterbi_dp. by rewrite Hr. }
  exists e. by rewrite He.
Qed.

Lemma main_aborts_on_unknown_observation_witness :
  ∃ e, main exact (corpus_file example_corpus)
            (job_file [None] [(3, [5; 6; 6]); (1, [9])]%Z) = Raise e.
Proof.
  apply (main_aborts_on_unknown_observation exact (corpus_file example_corpus)
           [None] [(3, [5; 6; 6]); (1, [9])]%Z example_model (1, [9])%Z 9%Z).
  - apply load_hmm_model_of.
  - apply (bool_decide_unpack _). by vm_compute.
  - apply (bool_decide_unpack _). by vm_compute.
  - apply (bool_decide_unpack _). by vm_compute.
Defined.
